(** * Export-object helpers of epan/export_object.c

    A shallow embedding of the registry of export-object taps
    ([register_export_object], [get_eo_by_name], [eo_iterate_tables], the
    accessors) and of the file-name massaging routines ([eo_massage_str],
    [eo_rename], [eo_ct2ext]), with the properties the specification states
    about them. *)

From Stdlib Require Import Ascii String ZArith Lia Bool List.
From Stdlib Require Import Sorting.Sorted Sorting.Permutation.
From Stdlib Require Import Numbers.DecimalString Numbers.DecimalZ.
From Equations.Prop Require Import Equations.
Import ListNotations.

Local Open Scope Z_scope.

(** ** C strings and the libc / GLib primitives the file calls *)

(** A [gchar]; a C string is the list of its bytes before the terminating
    NUL, a [GString] the list of its [len] bytes. *)
Definition gchar := ascii.
Definition cstring := list gchar.

(** Literals. *)
Definition str (s : string) : cstring := list_ascii_of_string s.

(** The value of a byte as an unsigned char. *)
Definition uchar (c : gchar) : Z := Z.of_N (N_of_ascii c).

(** [gsize] is a 64-bit unsigned integer; subtraction wraps around. *)
Definition GSIZE_MOD : Z := 2 ^ 64.
Definition gsize_sub (a b : Z) : Z := (a - b) mod GSIZE_MOD.
Definition gsize_add (a b : Z) : Z := (a + b) mod GSIZE_MOD.

(** [strlen] and [GString.len], as a [gsize]. *)
Definition strlen (s : cstring) : Z := Z.of_nat (length s).

(** [strchr (set, c) != NULL] for a non-NUL [c]. *)
Definition in_set (set : cstring) (c : gchar) : bool :=
  existsb (Ascii.eqb c) set.

(** [strpbrk (s, reject)]: the first byte of [s] that occurs in [reject].
    The result is the run before that byte, the byte, and what follows it
    (the C pointer is the byte and what follows); [None] is NULL. *)
Fixpoint strpbrk (s reject : cstring) : option (cstring * gchar * cstring) :=
  match s with
  | [] => None
  | c :: rest =>
      if in_set reject c then Some ([], c, rest)
      else match strpbrk rest reject with
           | Some (run, r, tl) => Some (c :: run, r, tl)
           | None => None
           end
  end.

(** [strrchr (s, c)]: the suffix of [s] that starts at the last occurrence
    of [c]; [None] is NULL. *)
Fixpoint strrchr (s : cstring) (c : gchar) : option cstring :=
  match s with
  | [] => None
  | x :: rest =>
      match strrchr rest c with
      | Some t => Some t
      | None => if Ascii.eqb x c then Some s else None
      end
  end.

(** [g_string_truncate (string, len)]: [string->len = MIN (len, string->len)]. *)
Definition g_string_truncate (s : cstring) (len : Z) : cstring :=
  if len <? strlen s then firstn (Z.to_nat len) s else s.

(** A lowercase hexadecimal digit. *)
Definition hex_digit (n : Z) : gchar :=
  if n <? 10 then ascii_of_N (Z.to_N (48 + n))
  else ascii_of_N (Z.to_N (87 + n)).

(** [printf ("%%%02x", c)] for a byte [c] below 0x80 (every byte of the
    reject set is): a percent sign and two lowercase hexadecimal digits. *)
Definition printf_pct_02x (c : gchar) : cstring :=
  [ "%"%char; hex_digit (uchar c / 16); hex_digit (uchar c mod 16) ].

(** [printf ("%d", n)]. *)
Definition printf_d (n : Z) : cstring :=
  str (NilZero.string_of_int (Z.to_int n)).

(** ** File-name massaging *)

(** The bytes that may not appear in a file name. *)
Definition reject : cstring :=
  str "<>:" ++ [ascii_of_nat 34] ++ str "/\|?*" ++
  map ascii_of_nat (seq 1 31).

(** Matching on a value while keeping the equation that defines it. *)
Definition inspect {A : Type} (x : A) : { y : A | x = y } := exist _ x eq_refl.

(** Lines 153-161 of [eo_massage_str]: the loop that replaces every
    disallowed byte by its escape.  [out_str] is the string built so far,
    [in_str] what remains to be scanned. *)
Equations eo_escape_loop (out_str in_str : cstring) : cstring
  by wf (length in_str) lt :=
  eo_escape_loop out_str in_str with inspect (strpbrk in_str reject) := {
    | exist _ (Some (run, tmp, rest)) Hfound =>
        eo_escape_loop (out_str ++ run ++ printf_pct_02x tmp) rest
    | exist _ None _ => out_str ++ in_str }.
Next Obligation.
  clear eo_escape_loop. revert run tmp rest Hfound.
  induction in_str as [|c s IH]; intros run tmp rest H; cbn [strpbrk] in H;
    [discriminate|].
  destruct (in_set reject c).
  - injection H as _ _ <-. cbn [length]. lia.
  - destruct (strpbrk s reject) as [[[run' c'] rest']|] eqn:E; [|discriminate].
    injection H as _ <- <-. specialize (IH run' c' rest' eq_refl).
    cbn [length]. lia.
Defined.

Definition eo_escaped (in_str : cstring) : cstring := eo_escape_loop [] in_str.

(** Lines 162-172: the length limit, the extension retained. *)
Definition eo_limited (out_str : cstring) (maxlen : Z) : cstring :=
  if strlen out_str >? maxlen then
    match strrchr out_str "."%char with
    | Some ext_str =>
        g_string_truncate out_str (gsize_sub maxlen (strlen ext_str)) ++ ext_str
    | None => g_string_truncate out_str maxlen
    end
  else out_str.

Section Massage.

(** [EXPORT_OBJECT_MAXFILELEN] comes from export_object.h. *)
Variable EXPORT_OBJECT_MAXFILELEN : Z.

Definition eo_rename (gstr : cstring) (dupn : Z) : cstring :=
  let gstr_tmp := str "(" ++ printf_d dupn ++ str ")" in
  match strrchr gstr "."%char with
  | Some ext_str =>
      (* Retain the extension *)
      let gstr := g_string_truncate gstr (gsize_sub (strlen gstr) (strlen ext_str)) in
      let room :=
        gsize_sub EXPORT_OBJECT_MAXFILELEN
                  (gsize_add (strlen gstr_tmp) (strlen ext_str)) in
      let gstr := if strlen gstr >=? room then g_string_truncate gstr room else gstr in
      gstr ++ gstr_tmp ++ ext_str
  | None =>
      let room := gsize_sub EXPORT_OBJECT_MAXFILELEN (strlen gstr_tmp) in
      let gstr := if strlen gstr >=? room then g_string_truncate gstr room else gstr in
      gstr ++ gstr_tmp
  end.

Definition eo_massage_str (in_str : cstring) (maxlen : Z) (dupn : Z) : cstring :=
  let out_str := eo_limited (eo_escaped in_str) maxlen in
  if dupn =? 0 then out_str else eo_rename out_str dupn.

End Massage.

(** Lines 178-184.  A [const char *] may be NULL ([None]). *)
Definition eo_ct2ext (content_type : option cstring) : option cstring :=
  (* TODO: Map the content type string to an extension string.  If no match,
     return NULL. *)
  content_type.

(** ** The registry of export-object taps *)

(** The byte under a [const gchar *]: the terminating NUL at the end. *)
Definition peek (s : cstring) : Z :=
  match s with
  | [] => 0
  | c :: _ => uchar c
  end.

(** GLib's [TOLOWER]: ASCII upper-case letters only. *)
Definition TOLOWER (c : gchar) : Z :=
  if (65 <=? uchar c) && (uchar c <=? 90) then uchar c - 65 + 97 else uchar c.

(** GLib's [g_ascii_strcasecmp]: the difference of the first two bytes
    that differ once lowered, or of the bytes where one string ends. *)
Fixpoint g_ascii_strcasecmp (s1 s2 : cstring) : Z :=
  match s1, s2 with
  | c1 :: r1, c2 :: r2 =>
      if (uchar c1 =? 0) || (uchar c2 =? 0) then uchar c1 - uchar c2
      else if TOLOWER c1 =? TOLOWER c2 then g_ascii_strcasecmp r1 r2
      else TOLOWER c1 - TOLOWER c2
  | _, _ => peek s1 - peek s2
  end.

(** [strcmp]: C fixes the sign of the result only. *)
Fixpoint strcmp (s1 s2 : cstring) : Z :=
  match s1, s2 with
  | [], [] => 0
  | [], _ :: _ => -1
  | _ :: _, [] => 1
  | c1 :: r1, c2 :: r2 =>
      if uchar c1 =? uchar c2 then strcmp r1 r2
      else Z.sgn (uchar c1 - uchar c2)
  end.

(** GLib's [g_slist_insert_sorted]: [data] goes before the first element
    it does not compare greater than, or at the end. *)
Fixpoint g_slist_insert_sorted {A : Type} (slist : list A) (data : A)
    (func : A -> A -> Z) : list A :=
  match slist with
  | [] => [data]
  | x :: next =>
      if func data x >? 0 then x :: g_slist_insert_sorted next data func
      else data :: slist
  end.

(** GLib's [g_slist_foreach]: [func (data, user_data)] on every element, in
    list order.  [W] is whatever the calls act upon. *)
Definition g_slist_foreach {A U W : Type} (slist : list A)
    (func : A -> U -> W -> W) (user_data : U) (w : W) : W :=
  fold_left (fun w data => func data user_data w) slist w.

(** A function pointer: [None] is NULL. *)
Definition fn_ptr := option nat.
Definition tap_packet_cb := fn_ptr.
Definition export_object_gui_reset_cb := fn_ptr.

Record register_eo := {
  proto_id : Z;               (* protocol id (0-indexed) *)
  tap_listen_str : cstring;   (* string used in register_tap_listener *)
  eo_func : tap_packet_cb;    (* function to be called for new incoming packets *)
  reset_cb : export_object_gui_reset_cb
}.

(** A [register_eo_t *]: NULL or the address of a record allocated by
    [g_new]. *)
Definition eo_ptr := option nat.

(** What a function does: it returns, or [DISSECTOR_ASSERT] throws. *)
Inductive outcome (A : Type) : Type :=
| Returns (a : A)
| DissectorError.
Arguments Returns {A} a.
Arguments DissectorError {A}.

(** Modelled from the spec: [DISSECTOR_ASSERT] (proto.h), the fatal
    assertion on a programming error; it lets a non-null pointer through. *)
Definition DISSECTOR_ASSERT {A : Type} (expression : fn_ptr)
    (k : outcome A) : outcome A :=
  match expression with
  | Some _ => k
  | None => DissectorError
  end.

Section Registry.

(** The protocol table (proto.c) and the tap table (tap.c). *)
Variable proto_get_protocol_filter_name : Z -> cstring.
Variable tap_table : Type.
Variable register_tap : cstring -> tap_table -> Z * tap_table.

(** The memory the file owns: the records allocated so far, each at the
    address that is its index, the list [registered_eo_tables] of their
    addresses, and the tap table. *)
Record eo_state := {
  eo_heap : list register_eo;
  registered_eo_tables : list nat;
  taps : tap_table
}.

Definition eo_init (t : tap_table) : eo_state :=
  {| eo_heap := []; registered_eo_tables := []; taps := t |}.

(** Reading through a pointer; [None] where C reads NULL or an address
    nothing was allocated at. *)
Definition load (heap : list register_eo) (eo : eo_ptr) : option register_eo :=
  match eo with
  | None => None
  | Some a => nth_error heap a
  end.

Definition null_eo : register_eo :=
  {| proto_id := -1; tap_listen_str := []; eo_func := None; reset_cb := None |}.

(** [a->proto_id] inside the comparison callback. *)
Definition deref (heap : list register_eo) (a : nat) : register_eo :=
  nth a heap null_eo.

Definition insert_sorted_by_table_name (heap : list register_eo)
    (a b : nat) : Z :=
  g_ascii_strcasecmp
    (proto_get_protocol_filter_name (proto_id (deref heap a)))
    (proto_get_protocol_filter_name (proto_id (deref heap b))).

Definition register_export_object (proto_id : Z)
    (export_packet_func : tap_packet_cb) (reset_cb : export_object_gui_reset_cb)
    (st : eo_state) : outcome (Z * eo_state) :=
  DISSECTOR_ASSERT export_packet_func
    (let table := length (eo_heap st) in          (* g_new *)
     let entry :=
       {| proto_id := proto_id;
          tap_listen_str := proto_get_protocol_filter_name proto_id ++ str "_eo";
          eo_func := export_packet_func;
          reset_cb := reset_cb |} in
     let heap := eo_heap st ++ [entry] in
     let tables :=
       g_slist_insert_sorted (registered_eo_tables st) table
                             (insert_sorted_by_table_name heap) in
     let (id, taps') := register_tap (tap_listen_str entry) (taps st) in
     Returns (id, {| eo_heap := heap; registered_eo_tables := tables;
                     taps := taps' |})).

Definition get_eo_proto_id (st : eo_state) (eo : eo_ptr) : option Z :=
  match eo with
  | None => Some (-1)
  | Some _ => option_map proto_id (load (eo_heap st) eo)
  end.

Definition get_eo_tap_listener_name (st : eo_state) (eo : eo_ptr) : option cstring :=
  option_map tap_listen_str (load (eo_heap st) eo).

Definition get_eo_packet_func (st : eo_state) (eo : eo_ptr) : option tap_packet_cb :=
  option_map eo_func (load (eo_heap st) eo).

Definition get_eo_reset_func (st : eo_state) (eo : eo_ptr)
  : option export_object_gui_reset_cb :=
  option_map reset_cb (load (eo_heap st) eo).

(** The loop of [get_eo_by_name]: [n] iterations are left, [i] is the
    index.  [g_slist_nth] past the end is NULL, which the loop never
    meets since it stops at [size]. *)
Fixpoint get_eo_by_name_loop (st : eo_state) (name : cstring) (n i : nat) : eo_ptr :=
  match n with
  | O => None
  | S n' =>
      match nth_error (registered_eo_tables st) i with
      | Some eo =>
          if strcmp name (proto_get_protocol_filter_name
                            (proto_id (deref (eo_heap st) eo))) =? 0
          then Some eo
          else get_eo_by_name_loop st name n' (S i)
      | None => None
      end
  end.

Definition get_eo_by_name (st : eo_state) (name : cstring) : eo_ptr :=
  let size := length (registered_eo_tables st) in
  get_eo_by_name_loop st name size 0.

Definition eo_iterate_tables {U W : Type} (st : eo_state)
    (func : nat -> U -> W -> W) (user_data : U) (w : W) : W :=
  g_slist_foreach (registered_eo_tables st) func user_data w.

(** A call of [register_export_object] and a run of such calls; a call
    that throws has changed nothing. *)
Record eo_call := {
  call_proto : Z;
  call_func : tap_packet_cb;
  call_reset : export_object_gui_reset_cb
}.

Definition register_call (st : eo_state) (c : eo_call) : eo_state :=
  match register_export_object (call_proto c) (call_func c) (call_reset c) st with
  | Returns (_, st') => st'
  | DissectorError => st
  end.

Definition register_calls (calls : list eo_call) (st : eo_state) : eo_state :=
  fold_left register_call calls st.

End Registry.

Arguments eo_heap {tap_table} e.
Arguments registered_eo_tables {tap_table} e.
Arguments taps {tap_table} e.
Arguments eo_init {tap_table} t.
Arguments register_export_object _ {tap_table} _ _ _ _ _.
Arguments get_eo_proto_id {tap_table} st eo.
Arguments get_eo_tap_listener_name {tap_table} st eo.
Arguments get_eo_packet_func {tap_table} st eo.
Arguments get_eo_reset_func {tap_table} st eo.
Arguments get_eo_by_name_loop _ {tap_table} st name n i.
Arguments get_eo_by_name _ {tap_table} st name.
Arguments eo_iterate_tables {tap_table U W} st func user_data w.
Arguments register_call _ {tap_table} _ st c.
Arguments register_calls _ {tap_table} _ calls st.

(** ** Export-object entries *)

(** The address of a block handed out by [g_malloc]. *)
Definition address := nat.

(** The four pointers of an [export_object_entry_t] that [eo_free_entry]
    reads (the struct is declared in export_object.h); [None] is NULL. *)
Record export_object_entry := {
  hostname : option address;
  content_type : option address;
  filename : option address;
  payload_data : option address
}.

(** An allocated block: the bytes of a string or payload, or an entry. *)
Inductive block : Type :=
| Bytes (data : cstring)
| Entry (e : export_object_entry).

(** The blocks that are allocated, by address. *)
Definition memory := address -> option block.

(** GLib's [g_free]: nothing on NULL; the block is given back otherwise.
    [None] where C frees an address that holds no allocated block. *)
Definition g_free (mem : option address) (m : memory) : option memory :=
  match mem with
  | None => Some m
  | Some a =>
      match m a with
      | Some _ => Some (fun x => if Nat.eqb x a then None else m x)
      | None => None
      end
  end.

(** Reading [*entry]; [None] where C reads through NULL, through an address
    that holds no block, or through one that holds no entry. *)
Definition read_entry (m : memory) (entry : option address)
  : option export_object_entry :=
  match entry with
  | None => None
  | Some a =>
      match m a with
      | Some (Entry e) => Some e
      | _ => None
      end
  end.

(** One statement after the other, as long as none of them faults. *)
Definition and_then {A B : Type} (x : option A) (k : A -> option B) : option B :=
  match x with
  | Some a => k a
  | None => None
  end.

Notation "x <- e ;; k" := (and_then e (fun x => k))
  (at level 61, e at next level, k at level 200, right associativity).

(** Lines 186-194; [entry->field] is read when its statement runs. *)
Definition eo_free_entry (entry : option address) (m : memory) : option memory :=
  e <- read_entry m entry ;; m <- g_free (hostname e) m ;;
  e <- read_entry m entry ;; m <- g_free (content_type e) m ;;
  e <- read_entry m entry ;; m <- g_free (filename e) m ;;
  e <- read_entry m entry ;; m <- g_free (payload_data e) m ;;
  g_free entry m.

(** * Notions the properties are stated with *)

(** A byte that may appear in a file name. *)
Definition safe_byte (c : gchar) : Prop := in_set reject c = false.

(** The bytes of a name that step 1 escapes. *)
Definition rejected (s : cstring) : cstring := filter (in_set reject) s.

(** A byte that ["%d"] prints. *)
Definition dec_char (c : gchar) : bool := in_set (str "-0123456789") c.

(** The blocks an entry owns: the pointers of it that are not NULL. *)
Definition owned (e : export_object_entry) : list address :=
  flat_map (fun p => match p with Some a => [a] | None => [] end)
    [hostname e; content_type e; filename e; payload_data e].

(** The memory without the blocks at the addresses of [gone]. *)
Definition without (m : memory) (gone : list address) : memory :=
  fun x => if existsb (Nat.eqb x) gone then None else m x.

Definition is_gsize (n : Z) : Prop := 0 <= n < GSIZE_MOD.

(** What the specification calls the extension: the name from its last
    ['.'] on, nothing when it has none. *)
Definition extension (s : cstring) : cstring :=
  match strrchr s "."%char with
  | Some ext => ext
  | None => []
  end.

(** The specification's step 1, byte by byte. *)
Definition escape_byte (c : gchar) : cstring :=
  if in_set reject c then printf_pct_02x c else [c].

Definition escape_spec (s : cstring) : cstring := flat_map escape_byte s.

(** The suffix that tells duplicates apart, as the specification names it. *)
Definition dup_suffix (dupn : Z) : cstring := str "(" ++ printf_d dupn ++ str ")".

(** Reading a decimal numeral back, the inverse of ["%d"]. *)
Definition scan_d (s : cstring) : option Z :=
  option_map Z.of_int (NilZero.int_of_string (string_of_list_ascii s)).

(** The value of a lowercase hexadecimal digit. *)
Definition hex_value (c : gchar) : option Z :=
  let v := uchar c in
  if (48 <=? v) && (v <=? 57) then Some (v - 48)
  else if (97 <=? v) && (v <=? 102) then Some (v - 87)
  else None.

(** The punctuation of the reject set. *)
Definition reject_punct : cstring := str "<>:" ++ [ascii_of_nat 34] ++ str "/\|?*".

(** [func] does not put [x] after [y]. *)
Definition cmp_le {A : Type} (func : A -> A -> Z) (x y : A) : Prop := func x y <= 0.

(** The calls that get past the assertion. *)
Definition accepted (c : eo_call) : bool :=
  match call_func c with
  | Some _ => true
  | None => false
  end.

Section RegistryNotions.

Variable proto_get_protocol_filter_name : Z -> cstring.
Variable tap_table : Type.

(** The filter name of the protocol of the record at an address. *)
Definition name_at (heap : list register_eo) (a : nat) : cstring :=
  proto_get_protocol_filter_name (proto_id (deref heap a)).

(** The record a call allocates. *)
Definition entry_of (c : eo_call) : register_eo :=
  {| proto_id := call_proto c;
     tap_listen_str := proto_get_protocol_filter_name (call_proto c) ++ str "_eo";
     eo_func := call_func c;
     reset_cb := call_reset c |}.

(** The list holds every allocated record once, in ascending order of the
    case-insensitive comparison of the filter names. *)
Definition registry_ok (st : eo_state tap_table) : Prop :=
  Permutation (registered_eo_tables st) (seq 0 (length (eo_heap st))) /\
  StronglySorted
    (cmp_le (insert_sorted_by_table_name proto_get_protocol_filter_name (eo_heap st)))
    (registered_eo_tables st).

(** The test of the loop of [get_eo_by_name]. *)
Definition name_matches (st : eo_state tap_table) (name : cstring) (eo : nat) : bool :=
  strcmp name (name_at (eo_heap st) eo) =? 0.

End RegistryNotions.

Arguments registry_ok _ {tap_table} st.
Arguments name_matches _ {tap_table} st name eo.

(** The pointers of an entry, in the order [eo_free_entry] frees them. *)
Definition entry_fields (e : export_object_entry) : list (option address) :=
  [hostname e; content_type e; filename e; payload_data e].

(** The addresses among some pointers: those that are not NULL. *)
Definition addresses (ps : list (option address)) : list address :=
  flat_map (fun p => match p with Some a => [a] | None => [] end) ps.

(** [g_free] on one pointer after the other. *)
Fixpoint g_free_all (ps : list (option address)) (m : memory) : option memory :=
  match ps with
  | [] => Some m
  | p :: ps' => and_then (g_free p m) (g_free_all ps')
  end.

(** The filter names of the entries of the list, in list order. *)
Definition registry_names (filter_name : Z -> cstring) {tap_table : Type}
    (st : eo_state tap_table) : list cstring :=
  map (name_at filter_name (eo_heap st)) (registered_eo_tables st).

(** A small protocol table and tap table to try the registry on. *)
Definition demo_filter_name (p : Z) : cstring :=
  if p =? 1 then str "http"
  else if p =? 2 then str "SMB"
  else if p =? 3 then str "imf"
  else str "(none)".

Definition demo_register_tap (name : cstring) (t : list cstring)
  : Z * list cstring :=
  (Z.of_nat (length t), t ++ [name]).

Definition demo_calls : list eo_call :=
  [ {| call_proto := 1; call_func := Some 100%nat; call_reset := None |};
    {| call_proto := 2; call_func := Some 200%nat; call_reset := Some 201%nat |};
    {| call_proto := 3; call_func := None; call_reset := None |};
    {| call_proto := 3; call_func := Some 300%nat; call_reset := None |} ].

Definition demo_state : eo_state (list cstring) :=
  register_calls demo_filter_name demo_register_tap demo_calls (eo_init []).

(** An entry with a host name, a file name and a payload, and no content
    type, to try [eo_free_entry] on. *)
Definition demo_entry : export_object_entry :=
  {| hostname := Some 1%nat; content_type := None;
     filename := Some 2%nat; payload_data := Some 3%nat |}.

Definition demo_memory : memory :=
  fun x =>
    match x with
    | 0%nat => Some (Entry demo_entry)
    | 1%nat => Some (Bytes (str "example.org"))
    | 2%nat => Some (Bytes (str "index.html"))
    | 3%nat => Some (Bytes (str "<html></html>"))
    | 4%nat => Some (Bytes (str "another block"))
    | _ => None
    end.

(** * Properties *)

(** ** Strings *)

Lemma strpbrk_split s set run c rest :
  strpbrk s set = Some (run, c, rest) ->
  s = run ++ c :: rest /\ in_set set c = true /\
  forallb (fun x => negb (in_set set x)) run = true.
Proof.
  revert run; induction s as [|x s IH]; intros run H; simpl in H; [discriminate|].
  destruct (in_set set x) eqn:Hx.
  - inversion H; subst; auto.
  - destruct (strpbrk s set) as [[[run' c'] rest']|]; [|discriminate].
    inversion H; subst.
    destruct (IH run' eq_refl) as (-> & Hc & Hrun).
    simpl; rewrite Hx; auto.
Qed.

Lemma strlen_app s t : strlen (s ++ t) = strlen s + strlen t.
Proof. unfold strlen; rewrite length_app; lia. Qed.

Lemma strlen_nonneg s : 0 <= strlen s.
Proof. unfold strlen; lia. Qed.

Lemma strpbrk_none s set :
  strpbrk s set = None -> forallb (fun x => negb (in_set set x)) s = true.
Proof.
  induction s as [|x s IH]; simpl; intros H; [reflexivity|].
  destruct (in_set set x); [discriminate|].
  destruct (strpbrk s set) as [[[? ?] ?]|]; [discriminate|auto].
Qed.

Lemma escape_spec_safe s :
  forallb (fun x => negb (in_set reject x)) s = true -> escape_spec s = s.
Proof.
  unfold escape_spec, escape_byte.
  induction s as [|x s IH]; cbn [forallb flat_map]; intros H; [reflexivity|].
  apply andb_true_iff in H as [Hx Hs].
  destruct (in_set reject x); [discriminate Hx|].
  cbn [app]; now rewrite IH.
Qed.

Lemma escape_spec_app s t : escape_spec (s ++ t) = escape_spec s ++ escape_spec t.
Proof. unfold escape_spec; apply flat_map_app. Qed.

Lemma eo_escape_loop_spec out_str in_str :
  eo_escape_loop out_str in_str = out_str ++ escape_spec in_str.
Proof.
  funelim (eo_escape_loop out_str in_str).
  - rewrite H. clear H H0 Heqcall.
    apply strpbrk_split in Hfound as (-> & Hc & Hrun).
    rewrite escape_spec_app, (escape_spec_safe _ Hrun).
    change (tmp :: rest) with ([tmp] ++ rest).
    rewrite escape_spec_app.
    unfold escape_spec at 2; cbn [flat_map]; unfold escape_byte; rewrite Hc.
    now rewrite app_nil_r, <- !app_assoc.
  - clear Heqcall H. apply strpbrk_none in e.
    now rewrite (escape_spec_safe _ e).
Qed.

Lemma eo_escaped_spec in_str : eo_escaped in_str = escape_spec in_str.
Proof. unfold eo_escaped; now rewrite eo_escape_loop_spec. Qed.

Lemma strrchr_none s c :
  strrchr s c = None -> forallb (fun x => negb (Ascii.eqb x c)) s = true.
Proof.
  induction s as [|x s IH]; cbn [strrchr forallb]; intros H; [reflexivity|].
  destruct (strrchr s c); [discriminate|].
  destruct (Ascii.eqb x c); [discriminate|].
  now rewrite IH.
Qed.

(** [strrchr] splits the string at the last occurrence. *)
Lemma strrchr_some s c ext :
  strrchr s c = Some ext ->
  exists stem tl, s = stem ++ ext /\ ext = c :: tl /\ strrchr tl c = None.
Proof.
  revert ext; induction s as [|x s IH]; cbn [strrchr]; intros ext H; [discriminate|].
  destruct (strrchr s c) as [t|] eqn:Hs.
  - inversion H; subst t.
    destruct (IH ext eq_refl) as (stem & tl & -> & -> & Htl).
    exists (x :: stem), tl; auto.
  - destruct (Ascii.eqb_spec x c) as [->|]; [|discriminate].
    inversion H; subst ext.
    exists [], s; auto.
Qed.

Lemma strrchr_app_ext stem c tl :
  strrchr tl c = None -> strrchr (stem ++ c :: tl) c = Some (c :: tl).
Proof.
  intros Htl; induction stem as [|x stem IH]; cbn [app strrchr].
  - now rewrite Htl, Ascii.eqb_refl.
  - now rewrite IH.
Qed.

Lemma g_string_truncate_firstn s len :
  0 <= len -> g_string_truncate s len = firstn (Z.to_nat len) s.
Proof.
  intros Hlen; unfold g_string_truncate, strlen.
  destruct (Z.ltb_spec len (Z.of_nat (length s))); [reflexivity|].
  symmetry; apply firstn_all2; lia.
Qed.

Lemma g_string_truncate_app s t :
  g_string_truncate (s ++ t) (strlen s) = s.
Proof.
  rewrite g_string_truncate_firstn by apply strlen_nonneg.
  unfold strlen; rewrite Nat2Z.id, firstn_app, Nat.sub_diag, firstn_all.
  cbn [firstn]; apply app_nil_r.
Qed.

Lemma strlen_truncate s len :
  0 <= len -> strlen (g_string_truncate s len) = Z.min len (strlen s).
Proof.
  intros Hlen; rewrite g_string_truncate_firstn by assumption.
  unfold strlen; rewrite length_firstn; lia.
Qed.

Lemma gsize_sub_exact a b :
  0 <= a - b < GSIZE_MOD -> gsize_sub a b = a - b.
Proof. intros H; unfold gsize_sub; now apply Z.mod_small. Qed.

Lemma gsize_sub_wraps a b :
  - GSIZE_MOD <= a - b < 0 -> gsize_sub a b = a - b + GSIZE_MOD.
Proof.
  intros H; unfold gsize_sub.
  rewrite <- (Z.mod_add _ 1) by (unfold GSIZE_MOD; lia).
  apply Z.mod_small; lia.
Qed.

Lemma gsize_sub_range a b : is_gsize (gsize_sub a b).
Proof. unfold gsize_sub, is_gsize; apply Z.mod_pos_bound; reflexivity. Qed.

Lemma gsize_add_exact a b :
  0 <= a + b < GSIZE_MOD -> gsize_add a b = a + b.
Proof. intros H; unfold gsize_add; now apply Z.mod_small. Qed.

(** Step 2 where no subtraction wraps: the stem gives way, the result is
    as long as the limit and ends with the extension. *)
Lemma eo_limited_ext out_str maxlen stem ext :
  is_gsize maxlen ->
  out_str = stem ++ ext ->
  strrchr out_str "."%char = Some ext ->
  strlen out_str > maxlen ->
  strlen ext <= maxlen ->
  eo_limited out_str maxlen = firstn (Z.to_nat (maxlen - strlen ext)) stem ++ ext /\
  strlen (eo_limited out_str maxlen) = maxlen.
Proof.
  intros Hmax -> Hext Hlong Hfit. unfold eo_limited.
  rewrite Hext.
  destruct (Z.gtb_spec (strlen (stem ++ ext)) maxlen) as [_|]; [|lia].
  unfold is_gsize in Hmax. pose proof (strlen_nonneg ext) as Hext0.
  rewrite gsize_sub_exact by lia.
  rewrite g_string_truncate_firstn by lia.
  rewrite strlen_app in Hlong.
  assert (Hn : (Z.to_nat (maxlen - strlen ext) <= length stem)%nat)
    by (unfold strlen in *; lia).
  rewrite firstn_app.
  replace (Z.to_nat (maxlen - strlen ext) - length stem)%nat with 0%nat by lia.
  cbn [firstn]; rewrite app_nil_r; split; [reflexivity|].
  rewrite strlen_app; unfold strlen at 1; rewrite length_firstn.
  unfold strlen in *; lia.
Qed.

Lemma eo_limited_noext out_str maxlen :
  0 <= maxlen ->
  strrchr out_str "."%char = None ->
  strlen out_str > maxlen ->
  eo_limited out_str maxlen = firstn (Z.to_nat maxlen) out_str /\
  strlen (eo_limited out_str maxlen) = maxlen.
Proof.
  intros Hmax Hext Hlong. unfold eo_limited.
  rewrite Hext.
  destruct (Z.gtb_spec (strlen out_str) maxlen) as [_|]; [|lia].
  rewrite strlen_truncate, g_string_truncate_firstn by lia.
  split; [reflexivity|lia].
Qed.

Lemma eo_limited_short out_str maxlen :
  strlen out_str <= maxlen -> eo_limited out_str maxlen = out_str.
Proof.
  intros H; unfold eo_limited.
  destruct (Z.gtb_spec (strlen out_str) maxlen); [lia|reflexivity].
Qed.

Lemma strlen_extension s : strlen (extension s) <= strlen s.
Proof.
  unfold extension. destruct (strrchr s "."%char) as [ext|] eqn:H.
  - apply strrchr_some in H as (stem & tl & -> & _ & _).
    rewrite strlen_app; pose proof (strlen_nonneg stem); lia.
  - apply strlen_nonneg.
Qed.

(** Step 2 keeps to the limit whenever the extension does. *)
Lemma eo_limited_bound out_str maxlen :
  is_gsize maxlen ->
  strlen (extension out_str) <= maxlen ->
  strlen (eo_limited out_str maxlen) <= maxlen.
Proof.
  intros Hmax Hfit.
  destruct (Z.le_gt_cases (strlen out_str) maxlen) as [Hs|Hl].
  - now rewrite eo_limited_short.
  - unfold extension in Hfit.
    destruct (strrchr out_str "."%char) as [ext|] eqn:Hext.
    + destruct (strrchr_some _ _ _ Hext) as (stem & tl & Hsplit & _ & _).
      destruct (eo_limited_ext out_str maxlen stem ext) as [_ ->]; auto; lia.
    + destruct (eo_limited_noext out_str maxlen) as [_ ->]; auto;
        unfold is_gsize in Hmax; lia.
Qed.

Lemma scan_d_printf_d n : scan_d (printf_d n) = Some n.
Proof.
  unfold scan_d, printf_d, str.
  rewrite string_of_list_ascii_of_string.
  destruct n as [|p|p].
  - reflexivity.
  - rewrite NilZero.isi.
    + cbn [option_map]; f_equal; apply DecimalZ.of_to.
    + cbn [Z.to_int]; intros [= H]; now apply DecimalPos.Unsigned.to_uint_nonnil in H.
    + discriminate.
  - rewrite NilZero.isi.
    + cbn [option_map]; f_equal; apply DecimalZ.of_to.
    + discriminate.
    + cbn [Z.to_int]; intros [= H]; now apply DecimalPos.Unsigned.to_uint_nonnil in H.
Qed.

Lemma firstn_prefix_all {A} (l : list A) : l = firstn (length l) l.
Proof. symmetry; apply firstn_all. Qed.

(** Making room in front of [tail]: what lines 123-124 and 130-131 leave
    of the stem. *)
Lemma eo_rename_room (M : Z) stem taillen :
  let room := gsize_sub M taillen in
  let stem' := if strlen stem >=? room then g_string_truncate stem room else stem in
  (exists n, stem' = firstn n stem) /\
  (is_gsize M -> 0 <= taillen <= M -> strlen stem' + taillen <= M).
Proof.
  intros room stem'; subst stem'.
  pose proof (gsize_sub_range M taillen) as Hroom; fold room in Hroom.
  unfold is_gsize in Hroom. split.
  - destruct (strlen stem >=? room).
    + exists (Z.to_nat room); apply g_string_truncate_firstn; lia.
    + exists (length stem); apply firstn_prefix_all.
  - intros HM Htail. unfold is_gsize in HM.
    assert (room = M - taillen) as -> by (apply gsize_sub_exact; lia).
    destruct (Z.geb_spec (strlen stem) (M - taillen)).
    + rewrite strlen_truncate by lia. lia.
    + lia.
Qed.

Section MassageFacts.

Variable M : Z.

Lemma eo_rename_ext gstr dupn stem ext :
  is_gsize (strlen gstr) ->
  gstr = stem ++ ext ->
  strrchr gstr "."%char = Some ext ->
  exists n,
    eo_rename M gstr dupn = firstn n stem ++ dup_suffix dupn ++ ext /\
    (is_gsize M -> strlen (dup_suffix dupn) + strlen ext <= M ->
     strlen (eo_rename M gstr dupn) <= M).
Proof.
  intros Hlen -> Hext. unfold eo_rename. rewrite Hext.
  fold (dup_suffix dupn).
  pose proof (strlen_nonneg stem) as Hs0. pose proof (strlen_nonneg ext) as He0.
  pose proof (strlen_nonneg (dup_suffix dupn)) as Hd0.
  rewrite strlen_app in Hlen. unfold is_gsize in Hlen.
  rewrite strlen_app, gsize_sub_exact by lia.
  replace (strlen stem + strlen ext - strlen ext) with (strlen stem) by lia.
  rewrite g_string_truncate_app.
  destruct (eo_rename_room M stem
              (gsize_add (strlen (dup_suffix dupn)) (strlen ext)))
    as [[n Hn] Hbound].
  cbv zeta in Hn, Hbound. exists n; split.
  - now rewrite Hn.
  - intros HM Hfit. unfold is_gsize in HM.
    rewrite !strlen_app.
    rewrite gsize_add_exact in * by lia.
    specialize (Hbound HM). lia.
Qed.


End MassageFacts.

(** Lines 123-124 and 130-131: what is kept of the stem is its first
    [room] bytes, all of it when it is shorter. *)
Lemma eo_rename_cut (room : Z) stem :
  0 <= room ->
  (if strlen stem >=? room then g_string_truncate stem room else stem) =
  firstn (Z.to_nat room) stem.
Proof.
  intros Hroom. destruct (Z.geb_spec (strlen stem) room).
  - now apply g_string_truncate_firstn.
  - symmetry; apply firstn_all2. unfold strlen in *; lia.
Qed.

Lemma strlen_firstn_cut (room : Z) stem :
  0 <= room -> strlen (firstn (Z.to_nat room) stem) = Z.min room (strlen stem).
Proof. intros H. unfold strlen. rewrite length_firstn. lia. Qed.

(** [eo_rename] on a string with an extension, the cut spelled out. *)
Lemma eo_rename_dot_exact (M : Z) gstr dupn stem ext :
  is_gsize (strlen gstr) ->
  gstr = stem ++ ext ->
  strrchr gstr "."%char = Some ext ->
  eo_rename M gstr dupn =
    firstn (Z.to_nat (gsize_sub M (gsize_add (strlen (dup_suffix dupn)) (strlen ext))))
      stem ++ dup_suffix dupn ++ ext.
Proof.
  intros Hlen -> Hdot. unfold eo_rename. rewrite Hdot. fold (dup_suffix dupn).
  pose proof (strlen_nonneg stem) as Hs0. pose proof (strlen_nonneg ext) as He0.
  rewrite strlen_app in Hlen. unfold is_gsize in Hlen.
  rewrite strlen_app, gsize_sub_exact by lia.
  replace (strlen stem + strlen ext - strlen ext) with (strlen stem) by lia.
  rewrite g_string_truncate_app.
  now rewrite eo_rename_cut by apply gsize_sub_range.
Qed.

(** [eo_rename] on a string without an extension, the cut spelled out. *)
Lemma eo_rename_nodot_exact (M : Z) gstr dupn :
  strrchr gstr "."%char = None ->
  eo_rename M gstr dupn =
    firstn (Z.to_nat (gsize_sub M (strlen (dup_suffix dupn)))) gstr ++
    dup_suffix dupn.
Proof.
  intros Hdot. unfold eo_rename. rewrite Hdot. fold (dup_suffix dupn).
  now rewrite eo_rename_cut by apply gsize_sub_range.
Qed.

Lemma strrchr_firstn_none s c n :
  strrchr s c = None -> strrchr (firstn n s) c = None.
Proof.
  revert n; induction s as [|x s IH]; intros [|n] H; try reflexivity.
  cbn [strrchr] in H. cbn [firstn strrchr].
  destruct (strrchr s c); [discriminate|].
  rewrite (IH n eq_refl).
  destruct (Ascii.eqb x c); [discriminate|reflexivity].
Qed.


Lemma in_set_reject c :
  in_set reject c = ((1 <=? uchar c) && (uchar c <=? 31)) || in_set reject_punct c.
Proof. destruct c as [[] [] [] [] [] [] [] []]; reflexivity. Qed.

Lemma escape_byte_rejected c :
  in_set reject c = true ->
  exists h l vh vl,
    escape_byte c = ["%"%char; h; l] /\
    hex_value h = Some vh /\ hex_value l = Some vl /\ 16 * vh + vl = uchar c.
Proof.
  intros H; unfold escape_byte; rewrite H; clear H.
  exists (hex_digit (uchar c / 16)), (hex_digit (uchar c mod 16)),
         (uchar c / 16), (uchar c mod 16).
  destruct c as [[] [] [] [] [] [] [] []]; repeat split; reflexivity.
Qed.

Lemma forallb_safe s :
  (forall c, In c s -> in_set reject c = false) ->
  forallb (fun x => negb (in_set reject x)) s = true.
Proof.
  intros H; apply forallb_forall; intros c Hc; now rewrite (H c Hc).
Qed.

(** ** The comparison functions *)

Lemma uchar_nonneg c : 0 <= uchar c.
Proof. unfold uchar; lia. Qed.

Lemma uchar_inj c1 c2 : uchar c1 = uchar c2 -> c1 = c2.
Proof.
  unfold uchar; intros H; apply N2Z.inj in H.
  rewrite <- (ascii_N_embedding c1), <- (ascii_N_embedding c2); now f_equal.
Qed.

Lemma TOLOWER_pos c : uchar c <> 0 -> 0 < TOLOWER c.
Proof.
  pose proof (uchar_nonneg c); unfold TOLOWER.
  destruct ((65 <=? uchar c) && (uchar c <=? 90)); lia.
Qed.

Lemma strcmp_eq s1 s2 : strcmp s1 s2 = 0 <-> s1 = s2.
Proof.
  revert s2; induction s1 as [|c1 r1 IH]; intros [|c2 r2]; cbn [strcmp];
    try (split; [lia|discriminate]); try tauto.
  destruct (Z.eqb_spec (uchar c1) (uchar c2)) as [Heq|Hne].
  - apply uchar_inj in Heq; subst c2. rewrite IH.
    split; [now intros ->|now intros [= ->]].
  - split; [lia|intros [= -> _]; contradiction].
Qed.

Lemma g_ascii_strcasecmp_opp s1 s2 :
  g_ascii_strcasecmp s1 s2 = - g_ascii_strcasecmp s2 s1.
Proof.
  revert s2; induction s1 as [|c1 r1 IH]; intros [|c2 r2];
    cbn [g_ascii_strcasecmp peek]; try lia.
  rewrite (orb_comm (uchar c2 =? 0)), (Z.eqb_sym (TOLOWER c2)).
  destruct ((uchar c1 =? 0) || (uchar c2 =? 0)); [lia|].
  destruct (TOLOWER c1 =? TOLOWER c2); [apply IH|lia].
Qed.

Lemma g_ascii_strcasecmp_trans s1 s2 s3 :
  g_ascii_strcasecmp s1 s2 <= 0 -> g_ascii_strcasecmp s2 s3 <= 0 ->
  g_ascii_strcasecmp s1 s3 <= 0.
Proof.
  revert s2 s3; induction s1 as [|c1 r1 IH]; intros [|c2 r2] [|c3 r3];
    cbn [g_ascii_strcasecmp peek];
    try pose proof (uchar_nonneg c1) as P1;
    try pose proof (uchar_nonneg c2) as P2;
    try pose proof (uchar_nonneg c3) as P3; try lia.
  - destruct (Z.eqb_spec (uchar c1) 0) as [->|N1]; cbn [orb]; [lia|].
    destruct (Z.eqb_spec (uchar c3) 0); lia.
  - destruct (Z.eqb_spec (uchar c1) 0) as [->|N1]; cbn [orb]; [lia|].
    destruct (Z.eqb_spec (uchar c2) 0) as [->|N2]; cbn [orb]; [lia|].
    destruct (Z.eqb_spec (TOLOWER c1) (TOLOWER c2)); lia.
  - pose proof (TOLOWER_pos c1) as L1. pose proof (TOLOWER_pos c2) as L2.
    pose proof (TOLOWER_pos c3) as L3.
    destruct (Z.eqb_spec (uchar c1) 0) as [E1|N1]; cbn [orb];
      [rewrite E1 in *; intros; destruct (uchar c3 =? 0); lia|].
    destruct (Z.eqb_spec (uchar c2) 0) as [E2|N2]; cbn [orb]; [lia|].
    destruct (Z.eqb_spec (uchar c3) 0) as [E3|N3]; cbn [orb]; [lia|].
    destruct (Z.eqb_spec (TOLOWER c1) (TOLOWER c2)) as [E12|N12];
      destruct (Z.eqb_spec (TOLOWER c2) (TOLOWER c3)) as [E23|N23];
      destruct (Z.eqb_spec (TOLOWER c1) (TOLOWER c3)) as [E13|N13];
      try lia.
    apply IH.
Qed.

(** ** Sorted insertion *)

Lemma StronglySorted_ext {A} (R R' : A -> A -> Prop) l :
  (forall x y, In x l -> In y l -> R x y -> R' x y) ->
  StronglySorted R l -> StronglySorted R' l.
Proof.
  intros Himp Hs; induction Hs as [|x l Hl IH Hx]; constructor.
  - apply IH; intros; apply Himp; simpl; auto.
  - rewrite Forall_forall in *; intros y Hy.
    apply Himp; simpl; auto.
Qed.

Section InsertSorted.

Context {A : Type} (func : A -> A -> Z).

Hypothesis func_opp : forall x y, func x y = - func y x.
Hypothesis func_trans :
  forall x y z, cmp_le func x y -> cmp_le func y z -> cmp_le func x z.

Lemma g_slist_insert_sorted_split slist data :
  exists l1 l2,
    slist = l1 ++ l2 /\ g_slist_insert_sorted slist data func = l1 ++ data :: l2.
Proof.
  induction slist as [|x next IH]; cbn [g_slist_insert_sorted].
  - exists [], []; auto.
  - destruct (func data x >? 0).
    + destruct IH as (l1 & l2 & -> & ->). exists (x :: l1), l2; auto.
    + exists [], (x :: next); auto.
Qed.

Lemma g_slist_insert_sorted_perm slist data :
  Permutation (g_slist_insert_sorted slist data func) (data :: slist).
Proof.
  destruct (g_slist_insert_sorted_split slist data) as (l1 & l2 & -> & ->).
  symmetry; apply Permutation_middle.
Qed.

Lemma g_slist_insert_sorted_Forall (P : A -> Prop) slist data :
  P data -> Forall P slist -> Forall P (g_slist_insert_sorted slist data func).
Proof.
  intros Hd Hl. eapply Permutation_Forall.
  - symmetry; apply g_slist_insert_sorted_perm.
  - now constructor.
Qed.

Lemma g_slist_insert_sorted_sorted slist data :
  StronglySorted (cmp_le func) slist ->
  StronglySorted (cmp_le func) (g_slist_insert_sorted slist data func).
Proof.
  induction 1 as [|x next Hnext IH Hx]; cbn [g_slist_insert_sorted].
  - repeat constructor.
  - destruct (Z.gtb_spec (func data x) 0) as [Hgt|Hle].
    + constructor; [assumption|].
      apply g_slist_insert_sorted_Forall; [|assumption].
      unfold cmp_le; rewrite func_opp; lia.
    + constructor; [now constructor|].
      constructor; [exact Hle|].
      eapply Forall_impl; [|exact Hx].
      intros y Hy; now apply func_trans with x.
Qed.

End InsertSorted.

(** ** The registry *)

Section RegistryFacts.

Variable proto_get_protocol_filter_name : Z -> cstring.
Variable tap_table : Type.
Variable register_tap : cstring -> tap_table -> Z * tap_table.

Local Abbreviation state := (eo_state tap_table).
Local Abbreviation register :=
  (register_export_object proto_get_protocol_filter_name register_tap).
Local Abbreviation run := (register_calls proto_get_protocol_filter_name register_tap).
Local Abbreviation table_cmp :=
  (insert_sorted_by_table_name proto_get_protocol_filter_name).
Local Abbreviation filter_name := proto_get_protocol_filter_name.
Local Abbreviation record_of := (entry_of proto_get_protocol_filter_name).

Lemma table_cmp_opp heap a b : table_cmp heap a b = - table_cmp heap b a.
Proof. apply g_ascii_strcasecmp_opp. Qed.

Lemma table_cmp_trans heap a b c :
  cmp_le (table_cmp heap) a b -> cmp_le (table_cmp heap) b c ->
  cmp_le (table_cmp heap) a c.
Proof. apply g_ascii_strcasecmp_trans. Qed.

Lemma deref_app heap e a :
  (a < length heap)%nat -> deref (heap ++ [e]) a = deref heap a.
Proof. intros H; unfold deref; now apply app_nth1. Qed.

Lemma deref_load heap a r : nth_error heap a = Some r -> deref heap a = r.
Proof. intros H; unfold deref; now apply nth_error_nth. Qed.

Lemma load_deref heap a :
  (a < length heap)%nat -> nth_error heap a = Some (deref heap a).
Proof. intros H; unfold deref; now apply nth_error_nth'. Qed.

Lemma registry_ok_valid (st : state) a :
  registry_ok filter_name st -> In a (registered_eo_tables st) ->
  (a < length (eo_heap st))%nat.
Proof.
  intros [Hperm _] Ha.
  apply (Permutation_in _ Hperm), in_seq in Ha; lia.
Qed.

(** What a call that gets past the assertion does to the state. *)
Lemma register_returns p f rc (st : state) :
  register p (Some f) rc st =
  Returns
    (fst (register_tap (proto_get_protocol_filter_name p ++ str "_eo") (taps st)),
     {| eo_heap :=
          eo_heap st ++
            [record_of {| call_proto := p; call_func := Some f; call_reset := rc |}];
        registered_eo_tables :=
          g_slist_insert_sorted (registered_eo_tables st) (length (eo_heap st))
            (table_cmp
               (eo_heap st ++
                  [record_of {| call_proto := p; call_func := Some f;
                               call_reset := rc |}]));
        taps :=
          snd (register_tap (proto_get_protocol_filter_name p ++ str "_eo")
                 (taps st)) |}).
Proof.
  unfold register_export_object, DISSECTOR_ASSERT, entry_of; cbn.
  now destruct (register_tap _ _).
Qed.

Lemma register_call_rejected (st : state) c :
  accepted c = false ->
  register_call proto_get_protocol_filter_name register_tap st c = st.
Proof.
  unfold accepted, register_call, register_export_object, DISSECTOR_ASSERT.
  now destruct (call_func c).
Qed.

Lemma register_call_accepted (st : state) c :
  accepted c = true ->
  let st' := register_call proto_get_protocol_filter_name register_tap st c in
  eo_heap st' = eo_heap st ++ [record_of c] /\
  registered_eo_tables st' =
    g_slist_insert_sorted (registered_eo_tables st) (length (eo_heap st))
      (table_cmp (eo_heap st ++ [record_of c])).
Proof.
  unfold accepted, register_call.
  destruct c as [p [f|] rc]; cbn [call_func]; [|discriminate].
  intros _. cbn [call_proto call_reset]. rewrite register_returns. cbn. auto.
Qed.

Lemma register_call_ok (st : state) c :
  registry_ok filter_name st ->
  registry_ok filter_name
    (register_call proto_get_protocol_filter_name register_tap st c).
Proof.
  intros Hok. destruct (accepted c) eqn:Hacc;
    [|now rewrite register_call_rejected].
  destruct (register_call_accepted st c Hacc) as [Hheap Htab].
  pose proof Hok as [Hperm Hsorted].
  unfold registry_ok. rewrite Hheap, Htab. split.
  - rewrite g_slist_insert_sorted_perm, length_app, Nat.add_comm.
    cbn [length Nat.add]. rewrite seq_S; cbn [Nat.add].
    rewrite Hperm. apply Permutation_cons_append.
  - apply g_slist_insert_sorted_sorted;
      [intros; apply table_cmp_opp | intros x y z; apply table_cmp_trans |].
    eapply StronglySorted_ext; [|exact Hsorted].
    intros x y Hx Hy. unfold cmp_le, insert_sorted_by_table_name.
    rewrite !deref_app by (now apply registry_ok_valid); auto.
Qed.

Lemma eo_init_ok (t : tap_table) : registry_ok filter_name (eo_init t).
Proof. split; cbn; constructor. Qed.

Lemma run_ok calls (st : state) :
  registry_ok filter_name st -> registry_ok filter_name (run calls st).
Proof.
  revert st; induction calls as [|c calls IH]; intros st Hok; [exact Hok|].
  cbn [register_calls fold_left]. apply IH. now apply register_call_ok.
Qed.

Lemma run_heap calls (st : state) :
  eo_heap (run calls st) = eo_heap st ++ map record_of (filter accepted calls).
Proof.
  revert st; induction calls as [|c calls IH]; intros st;
    cbn [register_calls fold_left filter map].
  - now rewrite app_nil_r.
  - fold (run calls (register_call proto_get_protocol_filter_name register_tap st c)).
    rewrite IH. destruct (accepted c) eqn:Hacc.
    + destruct (register_call_accepted st c Hacc) as [-> _].
      now rewrite <- app_assoc.
    + now rewrite register_call_rejected.
Qed.

End RegistryFacts.

(** * The claims *)

(** A concrete number is a [gsize]. *)
Ltac gsize_range := vm_compute; split; [discriminate | reflexivity].

(** ** File-name massaging *)




(** C2 (as amended).  For a nonzero [dupn] the result is the name left by
    step 2 with the suffix ["(N)"], [N] the decimal rendering of [dupn], put
    immediately before its extension when it has a ['.'] and at its end
    otherwise.  Only the stem in front of the suffix is cut: its first
    [room] bytes are kept, all of it when it is no longer, [room] being
    [EXPORT_OBJECT_MAXFILELEN] less the lengths of suffix and extension in
    [gsize] arithmetic.  Where suffix and extension fit in
    [EXPORT_OBJECT_MAXFILELEN] the result is therefore the whole name with
    the suffix when that fits and exactly [EXPORT_OBJECT_MAXFILELEN] bytes
    long when it does not; the length that is respected is
    [EXPORT_OBJECT_MAXFILELEN] and not [maxlen]. *)
Theorem eo_massage_str_duplicate (M : Z) (in_str : cstring) (maxlen dupn : Z) :
  dupn <> 0 ->
  is_gsize (strlen (eo_limited (eo_escaped in_str) maxlen)) ->
  dup_suffix dupn = str "(" ++ printf_d dupn ++ str ")" /\
  scan_d (printf_d dupn) = Some dupn /\
  (forall ext,
      strrchr (eo_limited (eo_escaped in_str) maxlen) "."%char = Some ext ->
      exists stem,
        eo_limited (eo_escaped in_str) maxlen = stem ++ ext /\
        eo_massage_str M in_str maxlen dupn =
          firstn
            (Z.to_nat
               (gsize_sub M (gsize_add (strlen (dup_suffix dupn)) (strlen ext))))
            stem ++ dup_suffix dupn ++ ext /\
        (is_gsize M -> strlen (dup_suffix dupn) + strlen ext <= M ->
         eo_massage_str M in_str maxlen dupn =
           firstn (Z.to_nat (M - strlen (dup_suffix dupn) - strlen ext)) stem ++
           dup_suffix dupn ++ ext /\
         strlen (eo_massage_str M in_str maxlen dupn) =
           Z.min M (strlen (eo_limited (eo_escaped in_str) maxlen) +
                    strlen (dup_suffix dupn)) /\
         strlen (eo_massage_str M in_str maxlen dupn) <= M)) /\
  (strrchr (eo_limited (eo_escaped in_str) maxlen) "."%char = None ->
   eo_massage_str M in_str maxlen dupn =
     firstn (Z.to_nat (gsize_sub M (strlen (dup_suffix dupn))))
       (eo_limited (eo_escaped in_str) maxlen) ++ dup_suffix dupn /\
   (is_gsize M -> strlen (dup_suffix dupn) <= M ->
    eo_massage_str M in_str maxlen dupn =
      firstn (Z.to_nat (M - strlen (dup_suffix dupn)))
        (eo_limited (eo_escaped in_str) maxlen) ++ dup_suffix dupn /\
    strlen (eo_massage_str M in_str maxlen dupn) =
      Z.min M (strlen (eo_limited (eo_escaped in_str) maxlen) +
               strlen (dup_suffix dupn)) /\
    strlen (eo_massage_str M in_str maxlen dupn) <= M)).
Proof.
  intros Hdup Hsize. unfold eo_massage_str.
  destruct (Z.eqb_spec dupn 0) as [|_]; [contradiction|].
  set (out_str := eo_limited (eo_escaped in_str) maxlen) in *.
  pose proof (strlen_nonneg (dup_suffix dupn)) as Hd0.
  split; [reflexivity|]. split; [apply scan_d_printf_d|]. split.
  - intros ext Hdot.
    destruct (strrchr_some _ _ _ Hdot) as (stem & tl & Hsplit & _ & _).
    pose proof (strlen_nonneg ext) as He0.
    exists stem. split; [exact Hsplit|].
    rewrite (eo_rename_dot_exact M out_str dupn stem ext Hsize Hsplit Hdot).
    split; [reflexivity|].
    intros HM Hfit. unfold is_gsize in HM.
    rewrite gsize_add_exact, gsize_sub_exact by lia.
    replace (M - (strlen (dup_suffix dupn) + strlen ext))
      with (M - strlen (dup_suffix dupn) - strlen ext) by lia.
    split; [reflexivity|].
    rewrite Hsplit, !strlen_app, strlen_firstn_cut by lia.
    split; lia.
  - intros Hdot.
    rewrite (eo_rename_nodot_exact M out_str dupn Hdot).
    split; [reflexivity|].
    intros HM Hfit. unfold is_gsize in HM.
    rewrite gsize_sub_exact by lia.
    split; [reflexivity|].
    rewrite !strlen_app, strlen_firstn_cut by lia.
    split; lia.
Qed.

Lemma eo_massage_str_duplicate_witness :
  eo_massage_str 255 (str "name.txt") 10 2 = str "name(2).txt" /\
  strlen (eo_massage_str 255 (str "name.txt") 10 2) = 11 /\
  strlen (eo_massage_str 255 (str "name.txt") 10 2) <= 255.
Proof.
  destruct (proj1 (proj2 (proj2
    (eo_massage_str_duplicate 255 (str "name.txt") 10 2
       ltac:(discriminate) ltac:(gsize_range)))) (str ".txt") eq_refl)
    as (stem & Hsplit & _ & Hfit).
  destruct (Hfit ltac:(gsize_range) ltac:(vm_compute; discriminate))
    as (Heq & Hlen & Hbound).
  change (eo_limited (eo_escaped (str "name.txt")) 10)
    with (str "name" ++ str ".txt") in Hsplit.
  apply app_inv_tail in Hsplit. subst stem.
  split; [exact Heq|]. split; [exact Hlen|exact Hbound].
Defined.

(** C2, the claim as stated, fails.  With [EXPORT_OBJECT_MAXFILELEN = 255],
    ["name.txt"] limited to 10 bytes becomes ["name(2).txt"] as duplicate 2:
    ["(2)"] stands before [".txt"], and the result is 11 bytes long.
    Whatever [EXPORT_OBJECT_MAXFILELEN] is, ["x.y"] limited to 2 bytes
    becomes ["(7).y"] as duplicate 7. *)
Lemma eo_massage_str_duplicate_counterexample :
  eo_massage_str 255 (str "name.txt") 10 2 = str "name(2).txt" /\
  10 < strlen (eo_massage_str 255 (str "name.txt") 10 2) /\
  (forall M, eo_massage_str M (str "x.y") 2 7 = str "(7).y").
Proof.
  split; [reflexivity|]. split; [reflexivity|].
  intros M.
  change (eo_massage_str M (str "x.y") 2 7) with (eo_rename M (str ".y") 7).
  destruct (eo_rename_ext M (str ".y") 7 [] (str ".y")) as (n & Heq & _);
    [gsize_range | reflexivity | reflexivity |].
  rewrite Heq. now rewrite firstn_nil.
Qed.

(** C3: the code at the failing input.  The escaped name ["a.bcdefgh"] is
    longer than 3 bytes and so is its extension [".bcdefgh"]:
    [maxlen - ext_str->len] wraps around, nothing is cut, and the extension
    is appended a second time. *)
Theorem eo_massage_str_extension_over_limit (M : Z) :
  eo_escaped (str "a.bcdefgh") = str "a.bcdefgh" /\
  extension (str "a.bcdefgh") = str ".bcdefgh" /\
  gsize_sub 3 (strlen (str ".bcdefgh")) = GSIZE_MOD - 5 /\
  eo_massage_str M (str "a.bcdefgh") 3 0 = str "a.bcdefgh.bcdefgh" /\
  strlen (eo_massage_str M (str "a.bcdefgh") 3 0) = 17 /\
  (forall out_str maxlen ext,
      is_gsize maxlen ->
      strrchr out_str "."%char = Some ext ->
      maxlen < strlen ext ->
      strlen out_str + strlen ext <= GSIZE_MOD ->
      eo_limited out_str maxlen = out_str ++ ext).
Proof.
  do 5 (split; [reflexivity|]).
  intros out_str maxlen ext Hmax Hdot Hover Hsize.
  destruct (strrchr_some _ _ _ Hdot) as (stem & tl & Hsplit & _ & _).
  pose proof (strlen_nonneg stem) as Hs0. pose proof (strlen_nonneg ext) as He0.
  unfold is_gsize in Hmax. unfold eo_limited. rewrite Hdot.
  assert (Hlen : strlen out_str = strlen stem + strlen ext)
    by (rewrite Hsplit; apply strlen_app).
  destruct (Z.gtb_spec (strlen out_str) maxlen) as [_|]; [|lia].
  rewrite gsize_sub_wraps by lia.
  unfold g_string_truncate.
  destruct (Z.ltb_spec (maxlen - strlen ext + GSIZE_MOD) (strlen out_str));
    [lia|reflexivity].
Qed.

(** C4.  The loop of [eo_massage_str] replaces every byte of the reject
    set (the nine punctuation marks and the bytes 1 to 31) by ['%'] and the
    two lowercase hexadecimal digits of its value and copies every other
    byte; the limit and the renaming work on the escaped name. *)
Theorem eo_massage_str_escapes (M : Z) :
  (forall in_str, eo_escaped in_str = flat_map escape_byte in_str) /\
  (forall c,
      in_set reject c =
      ((1 <=? uchar c) && (uchar c <=? 31)) || in_set reject_punct c) /\
  (forall c, in_set reject c = false -> escape_byte c = [c]) /\
  (forall c, in_set reject c = true ->
     exists h l vh vl,
       escape_byte c = ["%"%char; h; l] /\
       hex_value h = Some vh /\ hex_value l = Some vl /\
       16 * vh + vl = uchar c) /\
  (forall in_str maxlen dupn,
      eo_massage_str M in_str maxlen dupn =
      if dupn =? 0 then eo_limited (escape_spec in_str) maxlen
      else eo_rename M (eo_limited (escape_spec in_str) maxlen) dupn) /\
  (forall in_str maxlen,
      strlen (escape_spec in_str) <= maxlen ->
      eo_massage_str M in_str maxlen 0 = escape_spec in_str) /\
  eo_massage_str M (str "a<b") 100 0 = str "a%3cb" /\
  eo_massage_str M (str "file" ++ [ascii_of_nat 1] ++ str "name") 100 0 =
    str "file%01name".
Proof.
  split; [exact eo_escaped_spec|]. split; [exact in_set_reject|].
  split; [intros c H; unfold escape_byte; now rewrite H|].
  split; [exact escape_byte_rejected|].
  split; [intros; unfold eo_massage_str; now rewrite eo_escaped_spec|].
  split; [|split; reflexivity].
  intros in_str maxlen H. unfold eo_massage_str. cbn [Z.eqb].
  rewrite eo_escaped_spec. now apply eo_limited_short.
Qed.

(** C7.  A name with no byte of the reject set that is no longer than
    [maxlen] comes back unchanged when [dupn = 0]. *)
Theorem eo_massage_str_safe_name (M : Z) (in_str : cstring) (maxlen : Z) :
  (forall c, In c in_str -> in_set reject c = false) ->
  strlen in_str <= maxlen ->
  eo_massage_str M in_str maxlen 0 = in_str.
Proof.
  intros Hsafe Hlen. unfold eo_massage_str. cbn [Z.eqb].
  rewrite eo_escaped_spec, (escape_spec_safe _ (forallb_safe _ Hsafe)).
  now apply eo_limited_short.
Qed.

Lemma eo_massage_str_safe_name_witness :
  eo_massage_str 255 (str "report-2.pdf") 255 0 = str "report-2.pdf".
Proof.
  apply (eo_massage_str_safe_name 255 (str "report-2.pdf") 255).
  - intros c Hc. apply negb_true_iff.
    revert c Hc. apply forallb_forall. reflexivity.
  - vm_compute; discriminate.
Defined.

(** C8 (as amended).  [eo_ct2ext] returns its argument, whatever the
    content type: it has no failure path, and NULL comes out only where
    NULL went in, so that no lookup miss is ever reported. *)
Theorem eo_ct2ext_pass_through :
  (forall content_type, eo_ct2ext content_type = content_type) /\
  (forall content_type,
      eo_ct2ext content_type = None <-> content_type = None).
Proof. split; [reflexivity|]. intros ct; unfold eo_ct2ext; tauto. Qed.

(** C8, the claim as stated, fails: nothing maps ["application/x-unknown"]
    to an extension, and what comes back is not the NULL sentinel. *)
Lemma eo_ct2ext_counterexample :
  eo_ct2ext (Some (str "application/x-unknown")) =
    Some (str "application/x-unknown") /\
  eo_ct2ext (Some (str "application/x-unknown")) <> None.
Proof. split; [reflexivity|discriminate]. Qed.

(** ** The registry *)

Section RegistryClaims.

Variable proto_get_protocol_filter_name : Z -> cstring.
Variable tap_table : Type.
Variable register_tap : cstring -> tap_table -> Z * tap_table.

Local Abbreviation state := (eo_state tap_table).
Local Abbreviation register :=
  (register_export_object proto_get_protocol_filter_name register_tap).
Local Abbreviation run := (register_calls proto_get_protocol_filter_name register_tap).
Local Abbreviation by_name := (get_eo_by_name proto_get_protocol_filter_name).
Local Abbreviation filter_name := proto_get_protocol_filter_name.
Local Abbreviation name_of := (name_at proto_get_protocol_filter_name).
Local Abbreviation record_of := (entry_of proto_get_protocol_filter_name).
Local Abbreviation matches := (name_matches proto_get_protocol_filter_name).

Lemma name_matches_iff (st : state) name eo :
  matches st name eo = true <-> name_of (eo_heap st) eo = name.
Proof.
  unfold name_matches. rewrite Z.eqb_eq, strcmp_eq. split; auto.
Qed.

Lemma get_eo_by_name_loop_find (st : state) name pre post :
  registered_eo_tables st = pre ++ post ->
  get_eo_by_name_loop proto_get_protocol_filter_name st name
    (length post) (length pre) = find (matches st name) post.
Proof.
  revert pre; induction post as [|eo post IH]; intros pre Hsplit; [reflexivity|].
  cbn [length get_eo_by_name_loop find].
  rewrite Hsplit, nth_error_app2, Nat.sub_diag by lia. cbn [nth_error].
  fold (name_of (eo_heap st) eo). fold (matches st name eo).
  destruct (matches st name eo); [reflexivity|].
  replace (S (length pre)) with (length (pre ++ [eo]))
    by (rewrite length_app; cbn; lia).
  apply IH. now rewrite <- app_assoc.
Qed.

(** The loop is a search for the first entry whose filter name is [name]. *)
Lemma get_eo_by_name_find (st : state) name :
  by_name st name = find (matches st name) (registered_eo_tables st).
Proof. apply (get_eo_by_name_loop_find st name []); reflexivity. Qed.

Lemma find_none_iff {A} (f : A -> bool) l :
  find f l = None <-> forall x, In x l -> f x = false.
Proof.
  split; [apply find_none|].
  induction l as [|x l IH]; intros H; [reflexivity|].
  cbn [find]. rewrite (H x) by (now left). apply IH; intros; apply H; now right.
Qed.

Lemma find_first {A} (f : A -> bool) l x :
  In x l -> f x = true -> exists y, find f l = Some y.
Proof.
  intros Hin Hf. destruct (find f l) as [y|] eqn:E; [now exists y|].
  rewrite (find_none _ _ E x Hin) in Hf; discriminate.
Qed.

Lemma run_tables_incl calls (st : state) a :
  In a (registered_eo_tables st) -> In a (registered_eo_tables (run calls st)).
Proof.
  revert st; induction calls as [|c calls IH]; intros st Ha; [exact Ha|].
  cbn [register_calls fold_left]. apply IH.
  destruct (accepted c) eqn:Hacc; [|now rewrite register_call_rejected].
  destruct (register_call_accepted proto_get_protocol_filter_name _
              register_tap st c Hacc) as [_ ->].
  eapply Permutation_in;
    [symmetry; apply g_slist_insert_sorted_perm | now right].
Qed.

(** Every record on the heap is the record of an accepted call. *)
Lemma run_heap_call calls t0 a r :
  nth_error (eo_heap (run calls (eo_init t0))) a = Some r ->
  exists c, In c calls /\ accepted c = true /\ r = record_of c.
Proof.
  rewrite run_heap; cbn [eo_init eo_heap app]. intros H.
  apply nth_error_In, in_map_iff in H as (c & <- & Hc).
  apply filter_In in Hc as [Hc Hacc]. now exists c.
Qed.

Lemma run_call_heap calls t0 c :
  In c calls -> accepted c = true ->
  exists a,
    nth_error (eo_heap (run calls (eo_init t0))) a = Some (record_of c) /\
    In a (registered_eo_tables (run calls (eo_init t0))).
Proof.
  intros Hc Hacc.
  assert (Hin : In (record_of c) (eo_heap (run calls (eo_init t0)))).
  { rewrite run_heap; cbn [eo_init eo_heap app].
    apply in_map, filter_In; auto. }
  apply In_nth_error in Hin as [a Ha]. exists a; split; [exact Ha|].
  destruct (run_ok proto_get_protocol_filter_name _ register_tap calls
              (eo_init t0) (eo_init_ok _ _ t0)) as [Hperm _].
  apply (Permutation_in _ (Permutation_sym Hperm)), in_seq.
  assert (a < length (eo_heap (run calls (eo_init t0))))%nat
    by (apply nth_error_Some; congruence).
  lia.
Qed.

(** A visitor that notes each call it gets. *)
Lemma g_slist_foreach_visited {A U : Type} (slist : list A) (user_data : U)
    (visited : list (A * U)) :
  g_slist_foreach slist (fun data u seen => seen ++ [(data, u)]) user_data visited =
  visited ++ map (fun data => (data, user_data)) slist.
Proof.
  unfold g_slist_foreach. revert visited.
  induction slist as [|x slist IH]; intros visited; cbn [fold_left map].
  - now rewrite app_nil_r.
  - rewrite IH, <- app_assoc. reflexivity.
Qed.

(** C5.  After any run of [register_export_object] calls the records on
    the heap are those of the calls that got past the assertion, the list
    holds the address of each of them once and is sorted in ascending order
    of [g_ascii_strcasecmp] on the filter names, and [eo_iterate_tables]
    calls the visitor on the entries of the list, one after the other in
    list order, each time with the same [user_data]. *)
Theorem registry_sorted_iterated (calls : list eo_call) (t0 : tap_table) :
  let st := run calls (eo_init t0) in
  eo_heap st = map record_of (filter accepted calls) /\
  Permutation (registered_eo_tables st) (seq 0 (length (eo_heap st))) /\
  StronglySorted
    (fun a b =>
       g_ascii_strcasecmp (name_of (eo_heap st) a) (name_of (eo_heap st) b) <= 0)
    (registered_eo_tables st) /\
  (forall (U W : Type) (func : nat -> U -> W -> W) (user_data : U) (w : W),
      eo_iterate_tables st func user_data w =
      fold_left (fun w eo => func eo user_data w) (registered_eo_tables st) w) /\
  (forall (U : Type) (user_data : U),
      eo_iterate_tables st
        (fun eo u (visited : list (nat * U)) => visited ++ [(eo, u)])
        user_data [] =
      map (fun eo => (eo, user_data)) (registered_eo_tables st)).
Proof.
  intros st.
  destruct (run_ok proto_get_protocol_filter_name _ register_tap calls
              (eo_init t0) (eo_init_ok _ _ t0)) as [Hperm Hsorted].
  split; [apply (run_heap _ _ register_tap calls (eo_init t0))|].
  split; [exact Hperm|]. split; [exact Hsorted|]. split; [reflexivity|].
  intros U user_data. apply (g_slist_foreach_visited _ user_data []).
Qed.

(** C6.  Where the protocols registered have filter names of their own,
    [get_eo_by_name] on the filter name of a registered protocol returns an
    entry of the list whose record is a record of that protocol, the record
    of its registration when it was registered once; on a name that is the
    filter name of no registered protocol it returns NULL.  Names are
    compared with [strcmp]: byte for byte. *)
Theorem get_eo_by_name_correct (calls : list eo_call) (t0 : tap_table) :
  let st := run calls (eo_init t0) in
  (forall c1 c2, In c1 calls -> In c2 calls ->
     filter_name (call_proto c1) = filter_name (call_proto c2) ->
     call_proto c1 = call_proto c2) ->
  (forall c, In c calls -> accepted c = true ->
     exists eo r,
       by_name st (filter_name (call_proto c)) = Some eo /\
       In eo (registered_eo_tables st) /\
       load (eo_heap st) (Some eo) = Some r /\
       proto_id r = call_proto c /\
       ((forall c', In c' calls -> accepted c' = true ->
           call_proto c' = call_proto c -> c' = c) ->
        r = record_of c)) /\
  (forall name,
      (forall c, In c calls -> accepted c = true ->
         filter_name (call_proto c) <> name) ->
      by_name st name = None).
Proof.
  intros st Hinj.
  pose proof (run_ok proto_get_protocol_filter_name _ register_tap calls
                (eo_init t0) (eo_init_ok _ _ t0)) as Hok.
  fold st in Hok. split.
  - intros c Hc Hacc.
    destruct (run_call_heap calls t0 c Hc Hacc) as (a & Ha & Hain).
    fold st in Ha, Hain.
    assert (Hm : matches st (filter_name (call_proto c)) a = true).
    { apply name_matches_iff. unfold name_at.
      now rewrite (deref_load _ _ _ Ha). }
    destruct (find_first _ _ _ Hain Hm) as [eo Hfind].
    destruct (find_some _ _ Hfind) as [Hin Hmatch].
    apply name_matches_iff in Hmatch.
    pose proof (load_deref _ _ (registry_ok_valid _ _ _ _ Hok Hin)) as Hload.
    destruct (run_heap_call calls t0 eo _ Hload) as (c' & Hc' & Hacc' & Hr).
    unfold name_at in Hmatch. rewrite Hr in Hmatch. cbn [entry_of proto_id] in Hmatch.
    exists eo, (deref (eo_heap st) eo).
    rewrite get_eo_by_name_find. repeat split; auto.
    + rewrite Hr. cbn [entry_of proto_id]. now apply Hinj.
    + intros Honce. rewrite Hr. f_equal. apply Honce; auto.
  - intros name Hnone. rewrite get_eo_by_name_find. apply find_none_iff.
    intros eo Hin. destruct (matches st name eo) eqn:Hm; [|reflexivity].
    apply name_matches_iff in Hm.
    pose proof (load_deref _ _ (registry_ok_valid _ _ _ _ Hok Hin)) as Hload.
    destruct (run_heap_call calls t0 eo _ Hload) as (c' & Hc' & Hacc' & Hr).
    unfold name_at in Hm. rewrite Hr in Hm. cbn [entry_of proto_id] in Hm.
    now destruct (Hnone c' Hc' Hacc').
Qed.

(** C9.  A call with a NULL [export_packet_func] ends in the assertion.  A
    call with a function returns what [register_tap] returns for the name
    ["<filter name>_eo"], and the record it has allocated and entered in the
    list holds that name, the protocol and the two callbacks. *)
Theorem register_export_object_assertion (p : Z)
    (rc : export_object_gui_reset_cb) (st : state) :
  register p None rc st = DissectorError /\
  forall f,
    exists st',
      register p (Some f) rc st =
        Returns (fst (register_tap (filter_name p ++ str "_eo") (taps st)), st') /\
      taps st' = snd (register_tap (filter_name p ++ str "_eo") (taps st)) /\
      In (length (eo_heap st)) (registered_eo_tables st') /\
      get_eo_tap_listener_name st' (Some (length (eo_heap st))) =
        Some (filter_name p ++ str "_eo") /\
      get_eo_proto_id st' (Some (length (eo_heap st))) = Some p /\
      get_eo_packet_func st' (Some (length (eo_heap st))) = Some (Some f) /\
      get_eo_reset_func st' (Some (length (eo_heap st))) = Some rc.
Proof.
  split; [reflexivity|]. intros f.
  rewrite register_returns. eexists; split; [reflexivity|].
  unfold get_eo_tap_listener_name, get_eo_proto_id, get_eo_packet_func,
    get_eo_reset_func, load.
  cbn [eo_heap registered_eo_tables taps].
  rewrite nth_error_app2, Nat.sub_diag by lia. cbn.
  repeat split.
  eapply Permutation_in;
    [symmetry; apply g_slist_insert_sorted_perm | now left].
Qed.

(** C10.  A record that is on the heap stays what it is through any
    further calls of [register_export_object]: the four accessors return
    through its address what they returned before, and the address stays in
    the list if it was there.  A call that registers allocates one record
    behind the others and puts its address into the list, the entries that
    were there keeping their order. *)
Theorem register_export_object_frame (calls : list eo_call) (st : state)
    (a : nat) (r : register_eo) :
  load (eo_heap st) (Some a) = Some r ->
  load (eo_heap (run calls st)) (Some a) = Some r /\
  get_eo_proto_id (run calls st) (Some a) = get_eo_proto_id st (Some a) /\
  get_eo_tap_listener_name (run calls st) (Some a) =
    get_eo_tap_listener_name st (Some a) /\
  get_eo_packet_func (run calls st) (Some a) = get_eo_packet_func st (Some a) /\
  get_eo_reset_func (run calls st) (Some a) = get_eo_reset_func st (Some a) /\
  (In a (registered_eo_tables st) -> In a (registered_eo_tables (run calls st))) /\
  (forall p f rc,
      exists id st' l1 l2,
        register p (Some f) rc st = Returns (id, st') /\
        eo_heap st' =
          eo_heap st ++
            [record_of {| call_proto := p; call_func := Some f; call_reset := rc |}] /\
        registered_eo_tables st = l1 ++ l2 /\
        registered_eo_tables st' = l1 ++ length (eo_heap st) :: l2).
Proof.
  intros Hload.
  assert (Hkept : load (eo_heap (run calls st)) (Some a) = Some r).
  { cbn [load] in *. rewrite run_heap. rewrite nth_error_app1; [exact Hload|].
    apply nth_error_Some; congruence. }
  split; [exact Hkept|].
  unfold get_eo_proto_id, get_eo_tap_listener_name, get_eo_packet_func,
    get_eo_reset_func.
  rewrite Hkept, Hload.
  do 4 (split; [reflexivity|]).
  split; [apply run_tables_incl|].
  intros p f rc. rewrite register_returns.
  destruct (g_slist_insert_sorted_split
              (insert_sorted_by_table_name proto_get_protocol_filter_name
                 (eo_heap st ++
                    [record_of {| call_proto := p; call_func := Some f;
                                  call_reset := rc |}]))
              (registered_eo_tables st) (length (eo_heap st)))
    as (l1 & l2 & Hsplit & Hins).
  do 2 eexists. exists l1, l2.
  split; [reflexivity|]. cbn [eo_heap registered_eo_tables]. auto.
Qed.

End RegistryClaims.

(** ** A small protocol table to try the registry on *)

(** http, SMB and imf, registered in this order, are listed as http, imf,
    SMB; the call without a function has left nothing. *)
Example demo_state_tables :
  registered_eo_tables demo_state = [0; 2; 1]%nat /\
  map proto_id (eo_heap demo_state) = [1; 2; 3] /\
  taps demo_state = [str "http_eo"; str "SMB_eo"; str "imf_eo"].
Proof. repeat split. Qed.

Example demo_state_lookup :
  get_eo_by_name demo_filter_name demo_state (str "SMB") = Some 1%nat /\
  get_eo_by_name demo_filter_name demo_state (str "smb") = None /\
  get_eo_proto_id demo_state None = Some (-1) /\
  get_eo_tap_listener_name demo_state None = None.
Proof. repeat split. Qed.

Lemma demo_calls_distinct c1 c2 :
  In c1 demo_calls -> In c2 demo_calls ->
  demo_filter_name (call_proto c1) = demo_filter_name (call_proto c2) ->
  call_proto c1 = call_proto c2.
Proof.
  unfold demo_calls; cbn [In].
  intros [<-|[<-|[<-|[<-|[]]]]] [<-|[<-|[<-|[<-|[]]]]]; cbn;
    solve [reflexivity | discriminate].
Defined.

Lemma get_eo_by_name_correct_witness :
  (exists eo r,
      get_eo_by_name demo_filter_name demo_state (str "SMB") = Some eo /\
      In eo (registered_eo_tables demo_state) /\
      load (eo_heap demo_state) (Some eo) = Some r /\
      proto_id r = 2) /\
  get_eo_by_name demo_filter_name demo_state (str "smb") = None.
Proof.
  destruct (get_eo_by_name_correct demo_filter_name (list cstring)
              demo_register_tap demo_calls [] demo_calls_distinct)
    as [Hfound Hmiss].
  split.
  - destruct (Hfound {| call_proto := 2; call_func := Some 200%nat;
                        call_reset := Some 201%nat |})
      as (eo & r & Hname & Hin & Hload & Hproto & _);
      [cbn; auto | reflexivity |].
    exists eo, r; auto.
  - apply Hmiss. unfold demo_calls; cbn [In].
    intros c [<-|[<-|[<-|[<-|[]]]]] _; discriminate.
Defined.

Lemma register_export_object_frame_witness :
  get_eo_tap_listener_name demo_state (Some 0%nat) =
  get_eo_tap_listener_name
    (register_calls demo_filter_name demo_register_tap (firstn 1 demo_calls)
       (eo_init []))
    (Some 0%nat).
Proof.
  apply (register_export_object_frame demo_filter_name (list cstring)
           demo_register_tap (skipn 1 demo_calls)
           (register_calls demo_filter_name demo_register_tap
              (firstn 1 demo_calls) (eo_init []))
           0%nat
           {| proto_id := 1; tap_listen_str := str "http_eo";
              eo_func := Some 100%nat; reset_cb := None |}
           eq_refl).
Defined.

(** * Further properties of the code *)

(** ** What the massaged name is made of *)

Lemma Forall_firstn {A} (P : A -> Prop) n (l : list A) :
  Forall P l -> Forall P (firstn n l).
Proof.
  intros H; revert n; induction H as [|x l Hx Hl IH]; intros [|n];
    cbn [firstn]; auto.
Qed.

Lemma Forall_g_string_truncate (P : gchar -> Prop) s len :
  Forall P s -> Forall P (g_string_truncate s len).
Proof.
  intros H; unfold g_string_truncate.
  destruct (len <? strlen s); [now apply Forall_firstn|exact H].
Qed.

Lemma Forall_strrchr (P : gchar -> Prop) s c ext :
  strrchr s c = Some ext -> Forall P s -> Forall P ext.
Proof.
  intros H Hs. apply strrchr_some in H as (stem & tl & -> & _ & _).
  now apply Forall_app in Hs.
Qed.

Lemma dec_char_uint d :
  Forall (fun c => dec_char c = true)
    (list_ascii_of_string (NilEmpty.string_of_uint d)).
Proof.
  induction d; cbn [NilEmpty.string_of_uint list_ascii_of_string];
    constructor; auto; reflexivity.
Qed.

(** ["%d"] prints digits and the minus sign only. *)
Lemma printf_d_dec_char n : Forall (fun c => dec_char c = true) (printf_d n).
Proof.
  unfold printf_d, str, NilZero.string_of_int, NilZero.string_of_uint.
  destruct (Z.to_int n) as [d|d]; destruct d eqn:E; rewrite <- ?E;
    try (repeat constructor; fail);
    try apply dec_char_uint;
    cbn [list_ascii_of_string]; constructor; try reflexivity;
    try apply dec_char_uint.
Qed.

Lemma dec_char_facts c :
  dec_char c = true ->
  safe_byte c /\ Ascii.eqb c "."%char = false /\ Ascii.eqb c "("%char = false.
Proof.
  unfold safe_byte.
  destruct c as [[] [] [] [] [] [] [] []]; intros H;
    try discriminate H; repeat split.
Qed.

Lemma escape_byte_safe c : Forall safe_byte (escape_byte c).
Proof.
  unfold safe_byte.
  destruct c as [[] [] [] [] [] [] [] []]; repeat constructor.
Qed.

Lemma escape_spec_all_safe s : Forall safe_byte (escape_spec s).
Proof.
  unfold escape_spec. induction s as [|c s IH]; cbn [flat_map]; [constructor|].
  apply Forall_app; split; [apply escape_byte_safe|exact IH].
Qed.

Lemma dup_suffix_chars (P : gchar -> Prop) dupn :
  P "("%char -> P ")"%char -> (forall c, dec_char c = true -> P c) ->
  Forall P (dup_suffix dupn).
Proof.
  intros Hopen Hclose Hdec. unfold dup_suffix.
  apply Forall_app; split; [repeat constructor; exact Hopen|].
  apply Forall_app; split; [|repeat constructor; exact Hclose].
  eapply Forall_impl; [exact Hdec|apply printf_d_dec_char].
Qed.

Lemma eo_limited_Forall (P : gchar -> Prop) out_str maxlen :
  Forall P out_str -> Forall P (eo_limited out_str maxlen).
Proof.
  intros H; unfold eo_limited.
  destruct (strlen out_str >? maxlen); [|exact H].
  destruct (strrchr out_str "."%char) as [ext|] eqn:Hdot.
  - apply Forall_app; split; [now apply Forall_g_string_truncate|].
    eapply Forall_strrchr; eauto.
  - now apply Forall_g_string_truncate.
Qed.

Lemma eo_rename_Forall (P : gchar -> Prop) M gstr dupn :
  Forall P (dup_suffix dupn) -> Forall P gstr -> Forall P (eo_rename M gstr dupn).
Proof.
  intros Hsuf H; unfold eo_rename. fold (dup_suffix dupn).
  destruct (strrchr gstr "."%char) as [ext|] eqn:Hdot; cbv zeta.
  - apply Forall_app; split.
    + destruct (_ >=? _); repeat apply Forall_g_string_truncate; exact H.
    + apply Forall_app; split; [exact Hsuf|eapply Forall_strrchr; eauto].
  - apply Forall_app; split; [|exact Hsuf].
    destruct (_ >=? _); repeat apply Forall_g_string_truncate; exact H.
Qed.

(** X1.  Whatever the name, the limit, the duplicate number and
    [EXPORT_OBJECT_MAXFILELEN] are, no byte of the reject set is left in the
    result of [eo_massage_str]. *)
Theorem eo_massage_str_no_reject (M : Z) (in_str : cstring) (maxlen dupn : Z) :
  Forall (fun c => in_set reject c = false) (eo_massage_str M in_str maxlen dupn).
Proof.
  unfold eo_massage_str. rewrite eo_escaped_spec.
  pose proof (eo_limited_Forall safe_byte _ maxlen (escape_spec_all_safe in_str)) as H.
  destruct (dupn =? 0); [exact H|].
  apply eo_rename_Forall; [|exact H].
  apply dup_suffix_chars; [reflexivity|reflexivity|].
  intros c Hc; now apply dec_char_facts.
Qed.

(** ** How long the escaped name is *)

Lemma strlen_escape_byte c :
  strlen (escape_byte c) = if in_set reject c then 3 else 1.
Proof. unfold escape_byte; now destruct (in_set reject c). Qed.

Lemma strlen_escape_spec s :
  strlen (escape_spec s) = strlen s + 2 * strlen (rejected s) /\
  strlen (rejected s) <= strlen s.
Proof.
  unfold escape_spec, rejected.
  induction s as [|c s [IH1 IH2]]; cbn [flat_map filter]; [split; reflexivity|].
  rewrite strlen_app, IH1, strlen_escape_byte.
  change (c :: s) with ([c] ++ s). rewrite strlen_app.
  destruct (in_set reject c).
  - change (c :: filter (in_set reject) s) with ([c] ++ filter (in_set reject) s).
    rewrite strlen_app. change (strlen [c]) with 1. lia.
  - change (strlen [c]) with 1. lia.
Qed.

(** X2.  Escaping adds two bytes for every byte of the reject set and
    nothing else, so the escaped name is at least as long as the name and at
    most three times as long. *)
Theorem eo_escaped_length (in_str : cstring) :
  strlen (eo_escaped in_str) = strlen in_str + 2 * strlen (rejected in_str) /\
  strlen in_str <= strlen (eo_escaped in_str) <= 3 * strlen in_str.
Proof.
  rewrite eo_escaped_spec.
  destruct (strlen_escape_spec in_str) as [H1 H2].
  pose proof (strlen_nonneg (rejected in_str)). lia.
Qed.

(** X13.  Escaping does not tell all names apart.  A name that holds a
    byte of the reject set and its escaped form are two different names,
    and escaping gives the same for both: the escaped form is escaped to
    itself, ['%'] not being in the reject set. *)
Theorem eo_escaped_collision (in_str : cstring) :
  rejected in_str <> [] ->
  eo_escaped in_str <> in_str /\
  eo_escaped (eo_escaped in_str) = eo_escaped in_str.
Proof.
  intros Hrej. rewrite !eo_escaped_spec. split.
  - intros Heq. destruct (strlen_escape_spec in_str) as [Hlen _].
    rewrite Heq in Hlen.
    assert (strlen (rejected in_str) = 0) as Hzero by lia.
    unfold strlen in Hzero. destruct (rejected in_str); [congruence|].
    cbn [length] in Hzero. lia.
  - apply escape_spec_safe, forallb_forall. intros c Hc.
    pose proof (escape_spec_all_safe in_str) as Hsafe.
    rewrite Forall_forall in Hsafe. unfold safe_byte in Hsafe.
    now rewrite (Hsafe c Hc).
Qed.

Lemma eo_escaped_collision_witness :
  eo_escaped (str "a<b") <> str "a<b" /\
  eo_escaped (eo_escaped (str "a<b")) = eo_escaped (str "a<b").
Proof.
  apply (eo_escaped_collision (str "a<b")). discriminate.
Defined.

(** ** The extension *)

Lemma strrchr_app_none s t c :
  strrchr s c = None -> strrchr t c = None -> strrchr (s ++ t) c = None.
Proof.
  intros Hs Ht; induction s as [|x s IH]; cbn [app strrchr] in *; [exact Ht|].
  destruct (strrchr s c); [discriminate|].
  rewrite (IH eq_refl). destruct (Ascii.eqb x c); [discriminate|reflexivity].
Qed.

Lemma strrchr_none_Forall s c :
  Forall (fun x => Ascii.eqb x c = false) s -> strrchr s c = None.
Proof.
  induction 1 as [|x s Hx Hs IH]; cbn [strrchr]; [reflexivity|].
  now rewrite IH, Hx.
Qed.

Lemma strrchr_g_string_truncate_none s c len :
  strrchr s c = None -> strrchr (g_string_truncate s len) c = None.
Proof.
  intros H; unfold g_string_truncate.
  destruct (len <? strlen s); [now apply strrchr_firstn_none|exact H].
Qed.

(** Whatever stands in front of an extension, it stays the extension. *)
Lemma extension_app s ext :
  strrchr s "."%char = Some ext -> forall p, extension (p ++ ext) = ext.
Proof.
  intros H p. apply strrchr_some in H as (stem & tl & _ & -> & Htl).
  unfold extension. now rewrite strrchr_app_ext.
Qed.

Lemma dup_suffix_nodot dupn : strrchr (dup_suffix dupn) "."%char = None.
Proof.
  apply strrchr_none_Forall, dup_suffix_chars; try reflexivity.
  intros c Hc; now apply dec_char_facts.
Qed.

Lemma escape_byte_nodot c :
  Ascii.eqb c "."%char = false -> strrchr (escape_byte c) "."%char = None.
Proof.
  destruct c as [[] [] [] [] [] [] [] []]; intros H;
    try discriminate H; reflexivity.
Qed.

Lemma escape_spec_nodot s :
  strrchr s "."%char = None -> strrchr (escape_spec s) "."%char = None.
Proof.
  intros H. apply strrchr_none in H. unfold escape_spec.
  induction s as [|c s IH]; cbn [flat_map forallb] in *; [reflexivity|].
  apply andb_true_iff in H as [Hc Hs]. apply negb_true_iff in Hc.
  apply strrchr_app_none; [now apply escape_byte_nodot|now apply IH].
Qed.

Lemma extension_escape_spec s :
  extension (escape_spec s) = escape_spec (extension s).
Proof.
  unfold extension at 2.
  destruct (strrchr s "."%char) as [ext|] eqn:Hdot.
  - apply strrchr_some in Hdot as (stem & tl & -> & -> & Htl).
    rewrite escape_spec_app.
    change (escape_spec ("."%char :: tl)) with ("."%char :: escape_spec tl).
    unfold extension. rewrite strrchr_app_ext; [reflexivity|].
    now apply escape_spec_nodot.
  - unfold extension. now rewrite escape_spec_nodot.
Qed.

Lemma extension_eo_limited_any out_str maxlen :
  extension (eo_limited out_str maxlen) = extension out_str.
Proof.
  unfold eo_limited. destruct (strlen out_str >? maxlen); [|reflexivity].
  unfold extension at 2.
  destruct (strrchr out_str "."%char) as [ext|] eqn:Hdot.
  - now apply (extension_app out_str).
  - unfold extension. now rewrite strrchr_g_string_truncate_none.
Qed.

Lemma extension_eo_rename M gstr dupn :
  extension (eo_rename M gstr dupn) = extension gstr.
Proof.
  unfold eo_rename. fold (dup_suffix dupn). unfold extension at 2.
  destruct (strrchr gstr "."%char) as [ext|] eqn:Hdot; cbv zeta.
  - rewrite app_assoc. now apply (extension_app gstr).
  - unfold extension. rewrite strrchr_app_none; auto using dup_suffix_nodot.
    destruct (_ >=? _); repeat apply strrchr_g_string_truncate_none; exact Hdot.
Qed.

(** X3.  The extension of the result of [eo_massage_str], the part from the
    last ['.'] on, is the escaped extension of the name it was given:
    neither the limit nor the renaming touches it, whatever their
    arguments. *)
Theorem eo_massage_str_extension (M : Z) (in_str : cstring) (maxlen dupn : Z) :
  extension (eo_massage_str M in_str maxlen dupn) = eo_escaped (extension in_str).
Proof.
  unfold eo_massage_str. rewrite !eo_escaped_spec.
  destruct (dupn =? 0);
    now rewrite ?extension_eo_rename, extension_eo_limited_any,
      extension_escape_spec.
Qed.

(** ** Telling duplicates apart *)

Lemma printf_d_inj d1 d2 : printf_d d1 = printf_d d2 -> d1 = d2.
Proof.
  intros H. pose proof (scan_d_printf_d d1) as H1.
  rewrite H, scan_d_printf_d in H1. congruence.
Qed.

Lemma dup_suffix_tail_noparen dupn :
  strrchr (printf_d dupn ++ str ")") "("%char = None.
Proof.
  apply strrchr_none_Forall, Forall_app; split; [|repeat constructor].
  eapply Forall_impl; [|apply printf_d_dec_char].
  intros c Hc; now apply dec_char_facts.
Qed.

(** A string that ends with a suffix ["(N)"] tells [N]. *)
Lemma dup_suffix_inj p1 p2 d1 d2 :
  p1 ++ dup_suffix d1 = p2 ++ dup_suffix d2 -> d1 = d2.
Proof.
  intros H. apply (f_equal (fun s => strrchr s "("%char)) in H.
  unfold dup_suffix in H. cbn [str list_ascii_of_string app] in H.
  rewrite !strrchr_app_ext in H by apply dup_suffix_tail_noparen.
  injection H as H. apply app_inv_tail in H. now apply printf_d_inj.
Qed.

(** What [eo_rename] returns: something, the suffix, the extension. *)
Lemma eo_rename_shape M gstr dupn :
  exists p, eo_rename M gstr dupn = p ++ dup_suffix dupn ++ extension gstr.
Proof.
  unfold eo_rename, extension. fold (dup_suffix dupn).
  destruct (strrchr gstr "."%char) as [ext|]; cbv zeta; eexists.
  - reflexivity.
  - now rewrite app_nil_r.
Qed.

(** X4.  Two different duplicate numbers never give the same name:
    [eo_rename] of one string with [dupn1] and with [dupn2] differ whenever
    [dupn1] and [dupn2] do, also where the stem has been cut to make room. *)
Theorem eo_rename_distinct (M : Z) (gstr : cstring) (dupn1 dupn2 : Z) :
  dupn1 <> dupn2 -> eo_rename M gstr dupn1 <> eo_rename M gstr dupn2.
Proof.
  intros Hne Heq.
  destruct (eo_rename_shape M gstr dupn1) as [p1 H1].
  destruct (eo_rename_shape M gstr dupn2) as [p2 H2].
  rewrite H1, H2, !app_assoc in Heq. apply app_inv_tail in Heq.
  now apply dup_suffix_inj in Heq.
Qed.

Lemma eo_rename_distinct_witness :
  eo_rename 255 (str "name.txt") 1 <> eo_rename 255 (str "name.txt") 2.
Proof.
  apply (eo_rename_distinct 255 (str "name.txt") 1 2). discriminate.
Defined.

(** ** The limit, where the extension fits *)

(** X5.  With [dupn = 0], an escaped name that is longer than [maxlen] and
    whose extension is at most [maxlen] bytes long comes out exactly
    [maxlen] bytes long: the first bytes of the stem, as many as fit, and
    the whole extension; without a ['.'] it is the first [maxlen] bytes of
    the escaped name. *)
Theorem eo_massage_str_truncated (M : Z) (in_str : cstring) (maxlen : Z) :
  is_gsize maxlen ->
  strlen (eo_escaped in_str) > maxlen ->
  strlen (extension (eo_escaped in_str)) <= maxlen ->
  strlen (eo_massage_str M in_str maxlen 0) = maxlen /\
  exists stem,
    eo_escaped in_str = stem ++ extension (eo_escaped in_str) /\
    eo_massage_str M in_str maxlen 0 =
      firstn (Z.to_nat (maxlen - strlen (extension (eo_escaped in_str)))) stem ++
      extension (eo_escaped in_str).
Proof.
  intros Hmax Hlong Hfit. unfold eo_massage_str. cbn [Z.eqb].
  unfold extension in *.
  destruct (strrchr (eo_escaped in_str) "."%char) as [ext|] eqn:Hdot.
  - destruct (strrchr_some _ _ _ Hdot) as (stem & tl & Hsplit & _ & _).
    destruct (eo_limited_ext _ maxlen stem ext Hmax Hsplit Hdot Hlong Hfit)
      as [Heq Hlen].
    split; [exact Hlen|]. exists stem; auto.
  - destruct (eo_limited_noext _ maxlen (proj1 Hmax) Hdot Hlong) as [Heq Hlen].
    split; [exact Hlen|]. exists (eo_escaped in_str).
    rewrite !app_nil_r. change (strlen []) with 0. rewrite Z.sub_0_r. auto.
Qed.

Lemma eo_massage_str_truncated_witness :
  strlen (eo_massage_str 255 (str "averylongname.txt") 10 0) = 10 /\
  exists stem,
    str "averylongname.txt" = stem ++ str ".txt" /\
    eo_massage_str 255 (str "averylongname.txt") 10 0 =
      firstn 6 stem ++ str ".txt".
Proof.
  apply (eo_massage_str_truncated 255 (str "averylongname.txt") 10);
    [gsize_range | reflexivity | vm_compute; discriminate].
Defined.

(** X6.  Massaging a massaged name again changes nothing: with [dupn = 0]
    and an extension that fits in [maxlen], [eo_massage_str] returns its own
    result unchanged. *)
Theorem eo_massage_str_idempotent (M : Z) (in_str : cstring) (maxlen : Z) :
  is_gsize maxlen ->
  strlen (extension (eo_escaped in_str)) <= maxlen ->
  eo_massage_str M (eo_massage_str M in_str maxlen 0) maxlen 0 =
  eo_massage_str M in_str maxlen 0.
Proof.
  intros Hmax Hfit. unfold eo_massage_str. cbn [Z.eqb].
  pose proof (eo_limited_bound _ _ Hmax Hfit) as Hlen.
  assert (Hsafe : Forall safe_byte (eo_limited (eo_escaped in_str) maxlen)).
  { rewrite eo_escaped_spec. apply eo_limited_Forall, escape_spec_all_safe. }
  rewrite (eo_escaped_spec (eo_limited _ _)).
  rewrite escape_spec_safe.
  - now apply eo_limited_short.
  - apply forallb_forall. rewrite Forall_forall in Hsafe.
    intros c Hc. now rewrite (Hsafe c Hc).
Qed.

Lemma eo_massage_str_idempotent_witness :
  eo_massage_str 255 (eo_massage_str 255 (str "a<b:averylongname.txt") 12 0) 12 0 =
  eo_massage_str 255 (str "a<b:averylongname.txt") 12 0.
Proof.
  apply (eo_massage_str_idempotent 255 (str "a<b:averylongname.txt") 12);
    [gsize_range | vm_compute; discriminate].
Defined.

(** ** More on the registry *)

Lemma g_ascii_strcasecmp_refl s : g_ascii_strcasecmp s s = 0.
Proof.
  induction s as [|c s IH]; cbn [g_ascii_strcasecmp peek]; [reflexivity|].
  rewrite orb_diag, Z.eqb_refl. destruct (uchar c =? 0); [lia|exact IH].
Qed.

(** [find] returns the first element that passes the test. *)
Lemma find_some_first {A} (f : A -> bool) l x :
  find f l = Some x <->
  exists l1 l2,
    l = l1 ++ x :: l2 /\ f x = true /\ forall y, In y l1 -> f y = false.
Proof.
  split.
  - induction l as [|a l IH]; cbn [find]; [discriminate|].
    destruct (f a) eqn:Ha.
    + intros [= ->]. exists [], l; repeat split; auto. intros y [].
    + intros H. destruct (IH H) as (l1 & l2 & -> & Hx & Hl1).
      exists (a :: l1), l2; repeat split; auto.
      intros y [<-|Hy]; auto.
  - intros (l1 & l2 & -> & Hx & Hl1).
    induction l1 as [|a l1 IH]; cbn [app find].
    + now rewrite Hx.
    + rewrite (Hl1 a) by (now left). apply IH. intros; apply Hl1; now right.
Qed.

(** Where [g_slist_insert_sorted] puts [data]: behind the elements it
    compares greater than, up to the first one it does not. *)
Lemma g_slist_insert_sorted_place {A} (func : A -> A -> Z) slist data :
  exists l1 l2,
    slist = l1 ++ l2 /\
    g_slist_insert_sorted slist data func = l1 ++ data :: l2 /\
    (forall x, In x l1 -> func data x > 0) /\
    (forall x, hd_error l2 = Some x -> func data x <= 0).
Proof.
  induction slist as [|x next IH]; cbn [g_slist_insert_sorted].
  - exists [], []; repeat split; auto; [intros x []|discriminate].
  - destruct (Z.gtb_spec (func data x) 0) as [Hgt|Hle].
    + destruct IH as (l1 & l2 & -> & -> & Hl1 & Hl2).
      exists (x :: l1), l2; repeat split; auto.
      intros y [<-|Hy]; [lia|auto].
    + exists [], (x :: next); repeat split; auto; [intros y []|].
      intros y [= <-]; exact Hle.
Qed.

Section RegistryMore.

Variable proto_get_protocol_filter_name : Z -> cstring.
Variable tap_table : Type.
Variable register_tap : cstring -> tap_table -> Z * tap_table.

Local Abbreviation state := (eo_state tap_table).
Local Abbreviation register :=
  (register_export_object proto_get_protocol_filter_name register_tap).
Local Abbreviation run := (register_calls proto_get_protocol_filter_name register_tap).
Local Abbreviation by_name := (get_eo_by_name proto_get_protocol_filter_name).
Local Abbreviation filter_name := proto_get_protocol_filter_name.
Local Abbreviation name_of := (name_at proto_get_protocol_filter_name).
Local Abbreviation record_of := (entry_of proto_get_protocol_filter_name).
Local Abbreviation matches := (name_matches proto_get_protocol_filter_name).

Lemma get_eo_by_name_some (st : state) (name : cstring) (eo : nat) :
  by_name st name = Some eo <->
  exists l1 l2,
    registered_eo_tables st = l1 ++ eo :: l2 /\
    name_of (eo_heap st) eo = name /\
    forall x, In x l1 -> name_of (eo_heap st) x <> name.
Proof.
  rewrite get_eo_by_name_find. split.
  - intros H. apply find_some_first in H as (l1 & l2 & Hsplit & Hm & Hl1).
    exists l1, l2. split; [exact Hsplit|]. split.
    + now apply name_matches_iff in Hm.
    + intros x Hx Hname. apply name_matches_iff in Hname.
      rewrite (Hl1 x Hx) in Hname. discriminate.
  - intros (l1 & l2 & Hsplit & Hm & Hl1). apply find_some_first.
    exists l1, l2. split; [exact Hsplit|]. split.
    + now apply name_matches_iff.
    + intros x Hx. destruct (matches st name x) eqn:E; [|reflexivity].
      apply name_matches_iff in E. now destruct (Hl1 x Hx).
Qed.

(** X7.  In any state of the registry, [get_eo_by_name] returns the first
    entry of the list whose protocol has exactly the filter name asked for,
    and NULL exactly when the list has no such entry. *)
Theorem get_eo_by_name_first (st : state) (name : cstring) :
  (forall eo,
      by_name st name = Some eo <->
      exists l1 l2,
        registered_eo_tables st = l1 ++ eo :: l2 /\
        name_of (eo_heap st) eo = name /\
        forall x, In x l1 -> name_of (eo_heap st) x <> name) /\
  (by_name st name = None <->
   forall x, In x (registered_eo_tables st) -> name_of (eo_heap st) x <> name).
Proof.
  split; [intros eo; apply get_eo_by_name_some|].
  rewrite get_eo_by_name_find. split; intros H.
  - intros x Hx Hname. apply name_matches_iff in Hname.
    rewrite (proj1 (find_none_iff _ _) H x Hx) in Hname. discriminate.
  - apply find_none_iff. intros x Hx.
    destruct (matches st name x) eqn:E; [|reflexivity].
    apply name_matches_iff in E. now destruct (H x Hx).
Qed.

(** X8.  Looking up the filter name of a protocol right after registering
    it returns the record just allocated, also when the protocol, or one
    whose filter name differs in case only, was registered before; the
    accessors read the arguments of the call back through it. *)
Theorem register_then_get_eo_by_name (p : Z) (f : nat)
    (rc : export_object_gui_reset_cb) (st : state) :
  exists id st',
    register p (Some f) rc st = Returns (id, st') /\
    by_name st' (filter_name p) = Some (length (eo_heap st)) /\
    get_eo_proto_id st' (by_name st' (filter_name p)) = Some p /\
    get_eo_tap_listener_name st' (by_name st' (filter_name p)) =
      Some (filter_name p ++ str "_eo") /\
    get_eo_packet_func st' (by_name st' (filter_name p)) = Some (Some f) /\
    get_eo_reset_func st' (by_name st' (filter_name p)) = Some rc.
Proof.
  rewrite register_returns. do 2 eexists. split; [reflexivity|].
  set (e := record_of {| call_proto := p; call_func := Some f; call_reset := rc |}).
  set (st' := {| eo_heap := eo_heap st ++ [e] |}).
  assert (Hnew : deref (eo_heap st ++ [e]) (length (eo_heap st)) = e).
  { unfold deref. rewrite app_nth2, Nat.sub_diag by lia. reflexivity. }
  assert (Hfound : by_name st' (filter_name p) = Some (length (eo_heap st))).
  { apply get_eo_by_name_some.
    destruct (g_slist_insert_sorted_place
                (insert_sorted_by_table_name proto_get_protocol_filter_name
                   (eo_heap st ++ [e]))
                (registered_eo_tables st) (length (eo_heap st)))
      as (l1 & l2 & _ & Hins & Hl1 & _).
    exists l1, l2. cbn [st' registered_eo_tables eo_heap].
    split; [exact Hins|]. unfold name_at. rewrite Hnew. split; [reflexivity|].
    intros x Hx Hname. specialize (Hl1 x Hx).
    unfold insert_sorted_by_table_name in Hl1. rewrite Hnew, Hname in Hl1.
    cbn [e entry_of proto_id call_proto] in Hl1.
    rewrite g_ascii_strcasecmp_refl in Hl1. lia. }
  split; [exact Hfound|]. rewrite Hfound.
  unfold get_eo_proto_id, get_eo_tap_listener_name, get_eo_packet_func,
    get_eo_reset_func, load. cbn [st' eo_heap].
  rewrite nth_error_app2, Nat.sub_diag by lia. cbn. repeat split.
Qed.

(** X9.  A run of calls hands the tap table the listener names of the
    calls that got past the assertion, one [register_tap] each, in the order
    of the calls; a call that ends in the assertion registers no tap. *)
Theorem register_calls_taps (calls : list eo_call) (st : state) :
  taps (run calls st) =
  fold_left
    (fun t c => snd (register_tap (filter_name (call_proto c) ++ str "_eo") t))
    (filter accepted calls) (taps st).
Proof.
  revert st; induction calls as [|c calls IH]; intros st; [reflexivity|].
  cbn [register_calls fold_left filter].
  fold (run calls (register_call proto_get_protocol_filter_name register_tap st c)).
  rewrite IH. destruct (accepted c) eqn:Hacc.
  - cbn [fold_left]. f_equal.
    unfold accepted in Hacc. unfold register_call.
    destruct c as [p [f|] rc]; cbn [call_func] in Hacc; [|discriminate].
    cbn [call_func call_proto call_reset]. now rewrite register_returns.
  - now rewrite register_call_rejected.
Qed.

End RegistryMore.

(** ** The order of the list *)

Lemma Permutation_filter_same {A} (f : A -> bool) l1 l2 :
  Permutation l1 l2 -> Permutation (filter f l1) (filter f l2).
Proof.
  induction 1 as [|x l1 l2 H IH|x y l|l1 l2 l3 H12 IH12 H23 IH23];
    cbn [filter].
  - constructor.
  - destruct (f x); [now constructor|exact IH].
  - destruct (f x), (f y); try reflexivity. constructor.
  - now transitivity (filter f l2).
Qed.

Lemma StronglySorted_map {A B} (g : A -> B) (R : B -> B -> Prop) l :
  StronglySorted (fun x y => R (g x) (g y)) l -> StronglySorted R (map g l).
Proof.
  induction 1 as [|x l Hl IH Hx]; cbn [map]; constructor; [exact IH|].
  apply Forall_map. exact Hx.
Qed.

(** Two sorted arrangements of the same elements are the same list, where
    elements that compare both ways are equal. *)
Lemma StronglySorted_unique {A} (R : A -> A -> Prop) l1 l2 :
  (forall x y, In x l1 -> In y l1 -> R x y -> R y x -> x = y) ->
  StronglySorted R l1 -> StronglySorted R l2 -> Permutation l1 l2 -> l1 = l2.
Proof.
  intros Hanti H1; revert l2.
  induction H1 as [|x l1 Hs1 IH Hx]; intros l2 H2 Hperm.
  - now apply Permutation_nil in Hperm.
  - destruct H2 as [|y l2 Hs2 Hy];
      [apply Permutation_sym, Permutation_nil in Hperm; discriminate|].
    assert (Hxy : x = y).
    { assert (Hin1 : In x (y :: l2))
        by (apply (Permutation_in _ Hperm); now left).
      assert (Hin2 : In y (x :: l1))
        by (apply (Permutation_in _ (Permutation_sym Hperm)); now left).
      destruct Hin1 as [->|Hin1]; [reflexivity|].
      destruct Hin2 as [->|Hin2]; [reflexivity|].
      rewrite Forall_forall in Hx, Hy.
      apply Hanti; cbn; auto. }
    subst y. f_equal. apply IH.
    + intros a b Ha Hb. apply Hanti; now right.
    + exact Hs2.
    + now apply Permutation_cons_inv in Hperm.
Qed.

Lemma map_deref_seq (heap : list register_eo) :
  map (deref heap) (seq 0 (length heap)) = heap.
Proof.
  induction heap as [|r heap IH]; [reflexivity|].
  cbn [length seq map]. rewrite <- seq_shift, map_map.
  f_equal. exact IH.
Qed.

Section RegistryOrder.

Variable proto_get_protocol_filter_name : Z -> cstring.
Variable tap_table : Type.
Variable register_tap : cstring -> tap_table -> Z * tap_table.

Local Abbreviation run := (register_calls proto_get_protocol_filter_name register_tap).
Local Abbreviation filter_name := proto_get_protocol_filter_name.
Local Abbreviation names := (registry_names proto_get_protocol_filter_name).

(** The names in the list are those of the accepted calls. *)
Lemma registry_names_perm calls (t0 : tap_table) :
  Permutation (names (run calls (eo_init t0)))
    (map (fun c => filter_name (call_proto c)) (filter accepted calls)).
Proof.
  destruct (run_ok proto_get_protocol_filter_name _ register_tap calls
              (eo_init t0) (eo_init_ok _ _ t0)) as [Hperm _].
  unfold registry_names.
  rewrite (Permutation_map _ Hperm).
  unfold name_at.
  rewrite <- (map_map (deref _) (fun r => filter_name (proto_id r))).
  rewrite map_deref_seq, run_heap. cbn [eo_init eo_heap app].
  rewrite map_map. reflexivity.
Qed.

Lemma registry_names_sorted calls (t0 : tap_table) :
  StronglySorted (fun n1 n2 => g_ascii_strcasecmp n1 n2 <= 0)
    (names (run calls (eo_init t0))).
Proof.
  destruct (run_ok proto_get_protocol_filter_name _ register_tap calls
              (eo_init t0) (eo_init_ok _ _ t0)) as [_ Hsorted].
  unfold registry_names. apply StronglySorted_map. exact Hsorted.
Qed.

(** X10.  The order of the list does not depend on the order of the
    calls: two runs that make the same calls in different orders leave the
    same sequence of filter names in the list, provided that filter names
    of accepted calls that compare equal without regard to case are
    equal. *)
Theorem registry_order_independent (calls1 calls2 : list eo_call)
    (t1 t2 : tap_table) :
  Permutation calls1 calls2 ->
  (forall c c', In c calls1 -> In c' calls1 ->
     accepted c = true -> accepted c' = true ->
     g_ascii_strcasecmp (filter_name (call_proto c))
                        (filter_name (call_proto c')) = 0 ->
     filter_name (call_proto c) = filter_name (call_proto c')) ->
  names (run calls1 (eo_init t1)) = names (run calls2 (eo_init t2)).
Proof.
  intros Hperm Hdistinct.
  apply (StronglySorted_unique (fun n1 n2 => g_ascii_strcasecmp n1 n2 <= 0)).
  - intros n1 n2 Hn1 Hn2 H12 H21.
    apply (Permutation_in _ (registry_names_perm calls1 t1)), in_map_iff in Hn1
      as (c1 & <- & Hc1).
    apply (Permutation_in _ (registry_names_perm calls1 t1)), in_map_iff in Hn2
      as (c2 & <- & Hc2).
    apply filter_In in Hc1 as [Hc1 Ha1]. apply filter_In in Hc2 as [Hc2 Ha2].
    apply Hdistinct; auto.
    rewrite g_ascii_strcasecmp_opp in H21. lia.
  - apply registry_names_sorted.
  - apply registry_names_sorted.
  - rewrite registry_names_perm, registry_names_perm.
    apply Permutation_map, Permutation_filter_same, Hperm.
Qed.

End RegistryOrder.

Lemma registry_order_independent_witness :
  registry_names demo_filter_name
    (register_calls demo_filter_name demo_register_tap demo_calls (eo_init [])) =
  registry_names demo_filter_name
    (register_calls demo_filter_name demo_register_tap (rev demo_calls)
       (eo_init [])).
Proof.
  apply (registry_order_independent demo_filter_name (list cstring)
           demo_register_tap demo_calls (rev demo_calls) [] []).
  - apply Permutation_rev.
  - unfold demo_calls; cbn [In].
    intros c c' [<-|[<-|[<-|[<-|[]]]]] [<-|[<-|[<-|[<-|[]]]]]; cbn;
      intros; solve [reflexivity | discriminate].
Defined.

(** ** Releasing an entry *)

Lemma without_cons m a gone x :
  without m (a :: gone) x = if Nat.eqb x a then None else without m gone x.
Proof. unfold without; cbn [existsb]. now destruct (Nat.eqb x a). Qed.

Lemma g_free_some a m m' :
  g_free (Some a) m = Some m' ->
  m a <> None /\ forall x, m' x = if Nat.eqb x a then None else m x.
Proof.
  cbn [g_free]. destruct (m a) eqn:Ha; [|discriminate].
  intros [= <-]. split; [discriminate|reflexivity].
Qed.

(** Freeing one pointer after the other goes through exactly when the
    addresses differ from one another and each holds a block; the blocks at
    these addresses are gone then and the others are as they were. *)
Lemma g_free_all_spec ps m m' :
  g_free_all ps m = Some m' ->
  NoDup (addresses ps) /\
  (forall x, In x (addresses ps) -> m x <> None) /\
  forall x, m' x = without m (addresses ps) x.
Proof.
  revert m; induction ps as [|[a|] ps IH]; intros m; cbn [g_free_all].
  - intros [= <-]. repeat split; [constructor|intros x []].
  - unfold and_then. destruct (g_free (Some a) m) as [m1|] eqn:Hfree; [|discriminate].
    intros Hrest. apply g_free_some in Hfree as [Hlive Hm1].
    destruct (IH _ Hrest) as (Hnodup & Hall & Hm').
    assert (Hnot : ~ In a (addresses ps)).
    { intros Hin. apply (Hall a Hin). now rewrite Hm1, Nat.eqb_refl. }
    cbn [addresses flat_map app]. fold (addresses ps). repeat split.
    + now constructor.
    + intros x [<-|Hx]; [exact Hlive|].
      specialize (Hall x Hx). rewrite Hm1 in Hall.
      now destruct (Nat.eqb x a).
    + intros x. rewrite without_cons, Hm'. unfold without.
      rewrite Hm1. destruct (existsb (Nat.eqb x) (addresses ps)) eqn:E;
        [now destruct (Nat.eqb x a)|reflexivity].
  - cbn [and_then g_free]. apply IH.
Qed.

Lemma g_free_all_defined ps m :
  NoDup (addresses ps) ->
  (forall x, In x (addresses ps) -> m x <> None) ->
  exists m', g_free_all ps m = Some m'.
Proof.
  revert m; induction ps as [|[a|] ps IH]; intros m Hnodup Hlive.
  - now exists m.
  - cbn [addresses flat_map app] in Hnodup, Hlive. fold (addresses ps) in *.
    apply NoDup_cons_iff in Hnodup as [Hnot Hnodup].
    cbn [g_free_all g_free].
    destruct (m a) eqn:Ha; [|now destruct (Hlive a (or_introl eq_refl))].
    cbn [and_then]. apply IH; [exact Hnodup|].
    intros x Hx. destruct (Nat.eqb_spec x a) as [->|_]; [contradiction|].
    apply Hlive; now right.
  - cbn [g_free_all g_free and_then]. now apply IH.
Qed.

Lemma g_free_all_gone ps m a :
  In (Some a) ps -> m a = None -> g_free_all ps m = None.
Proof.
  intros Hin Hgone. destruct (g_free_all ps m) as [m'|] eqn:E; [|reflexivity].
  apply g_free_all_spec in E as (_ & Hlive & _).
  destruct (Hlive a); [|exact Hgone].
  unfold addresses. apply in_flat_map. exists (Some a); split; [exact Hin|now left].
Qed.

(** Freeing a pointer leaves the entry where it is, or takes it away. *)
Lemma g_free_entry_kept p m m1 a e :
  m a = Some (Entry e) \/ m a = None -> g_free p m = Some m1 ->
  m1 a = Some (Entry e) \/ m1 a = None.
Proof.
  intros Ha Hfree. destruct p as [b|]; [|now injection Hfree as <-].
  apply g_free_some in Hfree as [_ Hm1]. rewrite Hm1.
  destruct (Nat.eqb a b); auto.
Qed.

(** A statement of [eo_free_entry] with what follows it: reading the entry
    again changes nothing where the statements end with freeing it. *)
Lemma eo_free_entry_stage a e (field : export_object_entry -> option address)
    (rest : memory -> option memory) ps :
  (forall m, m a = Some (Entry e) \/ m a = None -> rest m = g_free_all ps m) ->
  In (Some a) ps ->
  forall m, m a = Some (Entry e) \/ m a = None ->
    (e' <- read_entry m (Some a) ;; m1 <- g_free (field e') m ;; rest m1) =
    g_free_all (field e :: ps) m.
Proof.
  intros Hrest Hin m [Ha|Hgone]; unfold read_entry.
  - rewrite Ha. cbn [and_then g_free_all].
    destruct (g_free (field e) m) as [m1|] eqn:E; cbn [and_then]; [|reflexivity].
    apply Hrest. eapply g_free_entry_kept; eauto.
  - rewrite Hgone. cbn [and_then]. symmetry.
    apply g_free_all_gone with a; [now right|exact Hgone].
Qed.

(** [eo_free_entry] frees the four pointers of the entry and the entry. *)
Lemma eo_free_entry_g_free_all a e m :
  m a = Some (Entry e) ->
  eo_free_entry (Some a) m = g_free_all (entry_fields e ++ [Some a]) m.
Proof.
  intros Ha. unfold eo_free_entry, entry_fields. cbn [app].
  apply (eo_free_entry_stage a e hostname); [|cbn; tauto|now left].
  apply (eo_free_entry_stage a e content_type); [|cbn; tauto].
  apply (eo_free_entry_stage a e filename); [|cbn; tauto].
  apply (eo_free_entry_stage a e payload_data); [|cbn; tauto].
  intros m' _. cbn [g_free_all]. unfold and_then.
  now destruct (g_free (Some a) m').
Qed.

Lemma addresses_app ps qs : addresses (ps ++ qs) = addresses ps ++ addresses qs.
Proof. unfold addresses; apply flat_map_app. Qed.

Lemma without_entry_last m a gone x :
  without m (gone ++ [a]) x = without m (a :: gone) x.
Proof.
  unfold without. rewrite existsb_app. cbn [existsb].
  now rewrite orb_false_r, orb_comm.
Qed.

Lemma NoDup_entry_last (a : address) gone : NoDup (gone ++ [a]) <-> NoDup (a :: gone).
Proof.
  split; intros H.
  - eapply Permutation_NoDup; [|exact H].
    symmetry; apply Permutation_cons_append.
  - eapply Permutation_NoDup; [|exact H]. apply Permutation_cons_append.
Qed.

(** X11.  Where an entry and the blocks its pointers name are allocated
    and are all different blocks, [eo_free_entry] frees them and nothing
    else: the entry and the blocks it owns are gone, every other block is
    as it was, a NULL pointer in the entry is passed over, and releasing
    the same entry once more is a fault. *)
Theorem eo_free_entry_releases (m : memory) (a : address)
    (e : export_object_entry) :
  m a = Some (Entry e) ->
  NoDup (a :: owned e) ->
  (forall x, In x (owned e) -> m x <> None) ->
  exists m',
    eo_free_entry (Some a) m = Some m' /\
    (forall x, m' x = without m (a :: owned e) x) /\
    eo_free_entry (Some a) m' = None.
Proof.
  intros Ha Hnodup Hlive.
  rewrite (eo_free_entry_g_free_all a e m Ha).
  destruct (g_free_all_defined (entry_fields e ++ [Some a]) m) as [m' Hm'].
  - rewrite addresses_app. now apply NoDup_entry_last.
  - rewrite addresses_app. intros x Hx. apply in_app_or in Hx as [Hx|[<-|[]]].
    + now apply Hlive.
    + rewrite Ha; discriminate.
  - exists m'. split; [exact Hm'|].
    apply g_free_all_spec in Hm' as (_ & _ & Hspec).
    assert (Hgone : forall x, m' x = without m (a :: owned e) x).
    { intros x. rewrite Hspec, addresses_app. apply without_entry_last. }
    split; [exact Hgone|].
    unfold eo_free_entry, read_entry.
    rewrite Hgone, without_cons, Nat.eqb_refl. reflexivity.
Qed.

Lemma eo_free_entry_releases_witness :
  exists m',
    eo_free_entry (Some 0%nat) demo_memory = Some m' /\
    (forall x, m' x = without demo_memory [0; 1; 2; 3]%nat x) /\
    eo_free_entry (Some 0%nat) m' = None.
Proof.
  apply (eo_free_entry_releases demo_memory 0%nat demo_entry eq_refl).
  - repeat constructor; cbn; intuition discriminate.
  - cbn. intros x [<-|[<-|[<-|[]]]]; discriminate.
Defined.

(** X12.  [eo_free_entry] goes through exactly when its argument is the
    address of an allocated entry and the entry and the blocks its pointers
    name are allocated blocks that all differ: on NULL, on an entry that
    was released, and on an entry two of whose pointers name the same block
    it is a fault. *)
Theorem eo_free_entry_defined (entry : option address) (m : memory) :
  (exists m', eo_free_entry entry m = Some m') <->
  (exists a e,
      entry = Some a /\ m a = Some (Entry e) /\
      NoDup (a :: owned e) /\
      forall x, In x (owned e) -> m x <> None).
Proof.
  split.
  - intros [m' Hm'].
    destruct entry as [a|]; [|discriminate Hm'].
    destruct (m a) as [[data|e]|] eqn:Ha;
      try (unfold eo_free_entry, read_entry in Hm'; rewrite Ha in Hm';
           discriminate Hm').
    rewrite (eo_free_entry_g_free_all a e m Ha) in Hm'.
    apply g_free_all_spec in Hm' as (Hnodup & Hlive & _).
    rewrite addresses_app in Hnodup, Hlive.
    exists a, e. repeat split; auto.
    + now apply NoDup_entry_last.
    + intros x Hx. apply Hlive, in_or_app. now left.
  - intros (a & e & -> & Ha & Hnodup & Hlive).
    rewrite (eo_free_entry_g_free_all a e m Ha).
    apply g_free_all_defined; rewrite addresses_app.
    + now apply NoDup_entry_last.
    + intros x Hx. apply in_app_or in Hx as [Hx|[<-|[]]].
      * now apply Hlive.
      * rewrite Ha; discriminate.
Qed.

(** ** How much [eo_rename] cuts *)

(** X14.  Where the suffix and the extension fit in
    [EXPORT_OBJECT_MAXFILELEN], [eo_rename] keeps of the stem the first
    bytes that still fit beside them and no fewer: the renamed string is the
    whole string with the suffix when that fits, and exactly
    [EXPORT_OBJECT_MAXFILELEN] bytes long when it does not. *)
Theorem eo_rename_exact (M : Z) (gstr : cstring) (dupn : Z) :
  is_gsize M ->
  is_gsize (strlen gstr) ->
  strlen (dup_suffix dupn) + strlen (extension gstr) <= M ->
  exists stem,
    gstr = stem ++ extension gstr /\
    eo_rename M gstr dupn =
      firstn (Z.to_nat (M - strlen (dup_suffix dupn) - strlen (extension gstr))) stem
      ++ dup_suffix dupn ++ extension gstr /\
    strlen (eo_rename M gstr dupn) =
      Z.min M (strlen gstr + strlen (dup_suffix dupn)).
Proof.
  intros HM Hsize Hfit. unfold is_gsize in HM, Hsize.
  pose proof (strlen_nonneg (dup_suffix dupn)) as Hd0.
  unfold eo_rename, extension in *. fold (dup_suffix dupn).
  destruct (strrchr gstr "."%char) as [ext|] eqn:Hdot; cbv zeta.
  - destruct (strrchr_some _ _ _ Hdot) as (stem & tl & Hsplit & _ & _).
    pose proof (strlen_nonneg stem) as Hs0. pose proof (strlen_nonneg ext) as He0.
    exists stem. split; [exact Hsplit|].
    rewrite Hsplit, strlen_app in *.
    rewrite (gsize_sub_exact (strlen stem + strlen ext)) by lia.
    replace (strlen stem + strlen ext - strlen ext) with (strlen stem) by lia.
    rewrite g_string_truncate_app.
    rewrite gsize_add_exact, gsize_sub_exact by lia.
    rewrite eo_rename_cut by lia.
    replace (M - (strlen (dup_suffix dupn) + strlen ext))
      with (M - strlen (dup_suffix dupn) - strlen ext) by lia.
    split; [reflexivity|].
    rewrite !strlen_app. unfold strlen at 1. rewrite length_firstn.
    unfold strlen in *. lia.
  - exists gstr. rewrite !app_nil_r. split; [reflexivity|].
    change (strlen []) with 0 in *.
    rewrite gsize_sub_exact by lia.
    rewrite eo_rename_cut by lia. rewrite Z.sub_0_r.
    split; [reflexivity|].
    rewrite strlen_app. unfold strlen at 1. rewrite length_firstn.
    unfold strlen in *. lia.
Qed.

Lemma eo_rename_exact_witness :
  exists stem,
    str "averylongname.txt" = stem ++ str ".txt" /\
    eo_rename 12 (str "averylongname.txt") 3 =
      firstn 5 stem ++ str "(3)" ++ str ".txt" /\
    strlen (eo_rename 12 (str "averylongname.txt") 3) = 12.
Proof.
  apply (eo_rename_exact 12 (str "averylongname.txt") 3);
    [gsize_range | gsize_range | vm_compute; discriminate].
Defined.
